(** * overlap_checker: a shallow embedding of the pipeline stages

    The stages of the tool chain (overlap checker, imprinter, merger) are
    thin drivers around OpenCascade (OCCT).  The kernel is not part of this
    repository, so its calls are modelled by their observable outcomes:
    - in the classifier, every kernel observation the C++ code reads
      (error flags, volumes, "has a SOLID/VERTEX" explorers, the clock
      readings at which the pave filler calls back the progress indicator)
      is an explicit input record;
    - in the imprinter, a solid is a finite set of unit voxels, the boolean
      operations COMMON, CUT, CUT21 and FUSE are intersection, difference and
      union, the volume is the number of voxels, and the kernel's failures are
      an explicit fault oracle.
    C++ doubles are modelled as rationals [Q]; no claim below depends on
    rounding. *)

From Stdlib Require Import NArith ZArith QArith Qminmax Qabs Qround String Ascii List Lia.
From stdpp Require Import base gmap list.

Import ListNotations.
Open Scope Z_scope.
#[local] Set Warnings "-register-all".

(* ------------------------------------------------------------------ *)
(** ** OCCT shape types and the BREP loader ([document::load_brep_file]) *)

Module Brep.

Inductive TopAbs_ShapeEnum :=
  | TopAbs_COMPOUND | TopAbs_COMPSOLID | TopAbs_SOLID | TopAbs_SHELL
  | TopAbs_FACE | TopAbs_WIRE | TopAbs_EDGE | TopAbs_VERTEX | TopAbs_SHAPE.

(** A shape as seen by [TopoDS_Iterator]: its type and immediate children. *)
Inductive TopoDS_Shape :=
  | MkShape (ty : TopAbs_ShapeEnum) (kids : list TopoDS_Shape).

Definition ShapeType (s : TopoDS_Shape) : TopAbs_ShapeEnum :=
  match s with MkShape t _ => t end.

Definition NbChildren_list (s : TopoDS_Shape) : list TopoDS_Shape :=
  match s with MkShape _ k => k end.

(** Outcome of loading: [std::exit(code)] or the filled [solid_shapes]. *)
Inductive load_result :=
  | LoadExit (code : Z)
  | Loaded (solid_shapes : list TopoDS_Shape).

(** The child loop of [load_brep_file] (part_019 l.172-187): every child
    that is a COMPOUND, COMPSOLID or SOLID is pushed back, any other type
    calls [std::exit(1)]. *)
Fixpoint push_children (acc : list TopoDS_Shape) (kids : list TopoDS_Shape)
  : load_result :=
  match kids with
  | [] => Loaded acc
  | shp :: rest =>
      match ShapeType shp with
      | TopAbs_COMPOUND | TopAbs_COMPSOLID | TopAbs_SOLID =>
          push_children (acc ++ [shp]) rest
      | _ => LoadExit 1
      end
  end.

(** [document::load_brep_file] (part_019 l.143-188) on a fresh document.
    [read] is the result of [BRepTools::Read]: [None] when it fails. *)
Definition load_brep_file (read : option TopoDS_Shape) : load_result :=
  match read with
  | None => LoadExit 1
  | Some shape =>
      match ShapeType shape with
      | TopAbs_COMPOUND | TopAbs_COMPSOLID =>
          push_children [] (NbChildren_list shape)
      | _ => LoadExit 1
      end
  end.

Definition child_type_ok (t : TopAbs_ShapeEnum) : bool :=
  match t with
  | TopAbs_COMPOUND | TopAbs_COMPSOLID | TopAbs_SOLID => true
  | _ => false
  end.

Definition top_type_ok (t : TopAbs_ShapeEnum) : bool :=
  match t with
  | TopAbs_COMPOUND | TopAbs_COMPSOLID => true
  | _ => false
  end.

(** The spec's reading: children are SOLID or COMPSOLID only. *)
Definition spec_child_type_ok (t : TopAbs_ShapeEnum) : bool :=
  match t with
  | TopAbs_COMPSOLID | TopAbs_SOLID => true
  | _ => false
  end.

End Brep.

(* ------------------------------------------------------------------ *)
(** ** Intersection classification (part_019 l.287-447, part_018) *)

Module Classify.

Open Scope Q_scope.

(** Strict comparison of doubles, computable. *)
Definition Qltb (a b : Q) : bool := negb (Qle_bool b a).

Inductive intersect_status :=
  | st_failed | st_timeout | st_distinct | st_touching | st_overlap.

Definition intersect_status_eqb (a b : intersect_status) : bool :=
  match a, b with
  | st_failed, st_failed | st_timeout, st_timeout
  | st_distinct, st_distinct | st_touching, st_touching
  | st_overlap, st_overlap => true
  | _, _ => false
  end.

(** [intersect_result] (geometry.hpp l.84-99) without the diagnostic
    fields (warning counters, fuzzy value reported, pave time). *)
Record intersect_result := mk_intersect_result {
  status : intersect_status;
  vol_common : Q;
  vol_cut : Q;
  vol_cut12 : Q;
}.

(** Everything [classify_solid_intersection] observes from OCCT during one
    call. [k_polls] are the [clock::now()] readings (milliseconds) at which
    the pave filler calls [UserBreak] on an attached progress indicator. *)
Record csi_kernel := mk_csi_kernel {
  k_start : Z;
  k_polls : list Z;
  k_filler_has_errors : bool;
  k_common_has_errors : bool;
  k_common_has_solid : bool;
  k_common_volume : Q;
  k_cut_has_errors : bool;
  k_cut_volume : Q;
  k_cut21_has_errors : bool;
  k_cut21_volume : Q;
  k_section_has_errors : bool;
  k_section_has_vertex : bool;
}.

(** [class ProgressTimeout] (part_019 l.287-325).  [attached] records
    whether [begin] called [algo.SetProgressIndicator]; a default
    constructed [time_point] is the epoch, 0. *)
Record ProgressTimeout := mk_timeout {
  startedat_ : Z;
  expireat_ : Z;
  attached : bool;
  expired_ : bool;
}.

Definition timeout_init : ProgressTimeout := mk_timeout 0 0 false false.

Definition timeout_begin (now : Z) (timeout_millisecs : N) (t : ProgressTimeout)
  : ProgressTimeout :=
  if (0 <? timeout_millisecs)%N
  then mk_timeout now (now + Z.of_N timeout_millisecs)%Z true (expired_ t)
  else mk_timeout now (expireat_ t) (attached t) (expired_ t).

Definition UserBreak (now : Z) (t : ProgressTimeout) : bool * ProgressTimeout :=
  if expired_ t then (true, t)
  else if (now <? expireat_ t)%Z then (false, t)
  else (true, mk_timeout (startedat_ t) (expireat_ t) (attached t) true).

(** [filler.Perform()]: the kernel polls the indicator, if one is attached,
    and stops at the first break. *)
Fixpoint run_polls (polls : list Z) (t : ProgressTimeout) : ProgressTimeout :=
  match polls with
  | [] => t
  | now :: rest =>
      let '(brk, t') := UserBreak now t in
      if brk then t' else run_polls rest t'
  end.

Definition filler_Perform (k : csi_kernel) (t : ProgressTimeout) : ProgressTimeout :=
  if attached t then run_polls (k_polls k) t else t.

(** A call returns a result or lets a [std::runtime_error] escape. *)
Inductive csi_outcome :=
  | Returned (r : intersect_result)
  | Threw (what : string).

(** [volume_of_shape] (part_019 l.118-126): throws on a negative volume. *)
Definition volume_of_shape (v : Q) (k : Q -> csi_outcome) : csi_outcome :=
  if Qltb v 0 then Threw "volume of shape less than zero" else k v.

(** [classify_solid_intersection] (part_019 l.328-447). *)
Definition classify_solid_intersection (k : csi_kernel) (fuzzy_value : Q)
    (pave_time_millisecs : N) : csi_outcome :=
  let result := mk_intersect_result st_failed (-1) (-1) (-1) in
  let timeout := timeout_begin (k_start k) pave_time_millisecs timeout_init in
  let timeout := filler_Perform k timeout in
  if expired_ timeout then Returned (mk_intersect_result st_timeout (-1) (-1) (-1))
  else if k_filler_has_errors k then Returned result
  else if k_common_has_errors k then Returned result
  else if k_common_has_solid k then
    let vc := k_common_volume k in
    if k_cut_has_errors k then Returned (mk_intersect_result st_failed vc (-1) (-1))
    else volume_of_shape (k_cut_volume k) (fun vcut =>
    if k_cut21_has_errors k then Returned (mk_intersect_result st_failed vc vcut (-1))
    else volume_of_shape (k_cut21_volume k) (fun vcut12 =>
    if Qltb vc 0 then
      let limit := Qmin vcut vcut12 * (1#10) in
      if Qltb limit (- vc) then Threw "negative volume too large"
      else Returned (mk_intersect_result st_touching vc vcut vcut12)
    else Returned (mk_intersect_result st_overlap vc vcut vcut12)))
  else if k_section_has_errors k then Returned result
  else Returned (mk_intersect_result
                   (if k_section_has_vertex k then st_touching else st_distinct)
                   (-1) (-1) (-1)).

(** The outcome of [shape_classifier] (part_018 l.34-82): a caught
    exception is logged and [abort()]s the process. *)
Inductive classifier_outcome :=
  | Classified (r : intersect_result)
  | Aborted.

(** The retry loop over [state.fuzzy_values].  [kernel fv] is the kernel's
    behaviour for the call with fuzzy value [fv]; the first component of the
    result lists the fuzzy values passed to [classify_solid_intersection], in
    call order.  [result] starts as the uninitialised local. *)
Fixpoint ladder (kernel : Q -> csi_kernel) (pave_time_millisecs : N)
    (fuzzy_values : list Q) (result : intersect_result) (calls : list Q)
  : list Q * classifier_outcome :=
  match fuzzy_values with
  | [] => (calls, Classified result)
  | fv :: rest =>
      match classify_solid_intersection (kernel fv) fv pave_time_millisecs with
      | Threw _ => (calls ++ [fv], Aborted)
      | Returned r =>
          if intersect_status_eqb (status r) st_failed
          then ladder kernel pave_time_millisecs rest r (calls ++ [fv])
          else (calls ++ [fv], Classified r)
      end
  end.

Definition uninit_result : intersect_result := mk_intersect_result st_failed 0 0 0.

Definition shape_classifier (kernel : Q -> csi_kernel) (pave_time_millisecs : N)
    (fuzzy_values : list Q) : list Q * classifier_outcome :=
  ladder kernel pave_time_millisecs fuzzy_values uninit_result [].

End Classify.

(* ------------------------------------------------------------------ *)
(** ** The overlap checker's [main] (part_018 l.99-403) *)

Module OverlapChecker.

Import Classify.
Open Scope Q_scope.

(** Configuration checks (part_018 l.212-231), run right after argument
    parsing.  [Some code] is the [return code] that ends [main] before the
    document is loaded; [None] lets [main] go on. *)
Fixpoint check_tolerances (imprint_tolerances : list Q) : option Z :=
  match imprint_tolerances with
  | [] => None
  | tolerance :: rest =>
      if Qltb tolerance 0 then Some 1%Z
      else (* a bbox clearance below the tolerance is only warned about *)
        check_tolerances rest
  end.

Definition check_config (imprint_tolerances : list Q) (bbox_clearance : Q)
    (max_common_volume_ratio : Q) : option Z :=
  match check_tolerances imprint_tolerances with
  | Some code => Some code
  | None =>
      if negb (Qle_bool 0 max_common_volume_ratio
               && Qle_bool max_common_volume_ratio 1)
      then Some 1%Z
      else None
  end.

(** [struct worker_output]. *)
Record worker_output := mk_worker_output {
  hi : nat;
  lo : nat;
  result : intersect_result;
}.

(** A line written to [std::cout]. *)
Inductive csv_row :=
  | TouchRow (hi lo : nat)
  | OverlapRow (hi lo : nat) (state : string) (vol_common vol_hi vol_lo : Q).

Record report_state := mk_report_state {
  rows : list csv_row;
  num_processed : nat;
  num_failed : nat;
  num_touching : nat;
  num_overlaps : nat;
  num_bad_overlaps : nat;
}.

Definition report_init : report_state := mk_report_state [] 0 0 0 0 0.

(** One iteration of the [while (!map.empty())] loop (l.298-382);
    [volumes] is the vector of solid volumes computed up front. *)
Definition report_one (max_common_volume_ratio : Q) (volumes : list Q)
    (s : report_state) (output : worker_output) : report_state :=
  let '(mk_report_state rs np nf nt no nb) := s in
  let np := S np in
  let h := hi output in
  let l := lo output in
  match status (result output) with
  | st_failed => mk_report_state rs np (S nf) nt no nb
  | st_timeout => mk_report_state rs np (S nf) nt no nb
  | st_distinct => mk_report_state rs np nf nt no nb
  | st_touching => mk_report_state (rs ++ [TouchRow h l]) np nf (S nt) no nb
  | st_overlap =>
      let vc := vol_common (result output) in
      let vh := nth h volumes 0 in
      let vl := nth l volumes 0 in
      let min_vol := Qmin vh vl in
      let max_overlap := min_vol * max_common_volume_ratio in
      if Qltb max_overlap vc
      then mk_report_state (rs ++ [OverlapRow h l "bad_overlap" vc vh vl])
             np nf nt no (S nb)
      else mk_report_state (rs ++ [OverlapRow h l "overlap" vc vh vl])
             np nf nt (S no) nb
  end.

Definition report_all (max_common_volume_ratio : Q) (volumes : list Q)
    (outputs : list worker_output) : report_state :=
  fold_left (report_one max_common_volume_ratio volumes) outputs report_init.

(** The exit code once every output has been drained (l.393-402). *)
Definition report_exit (s : report_state) : Z :=
  if (Nat.eqb (num_failed s) 0 && Nat.eqb (num_bad_overlaps s) 0)%bool
  then 0%Z else 1%Z.

(** The rows whose state is [bad_overlap]. *)
Definition is_bad_row (r : csv_row) : bool :=
  match r with
  | OverlapRow _ _ st _ _ _ => String.eqb st "bad_overlap"
  | _ => false
  end.

(** The rows the spec describes for one output: a touch row for a
    touching pair; for an overlapping pair, [bad_overlap] exactly when
    [vol_common > max_common_volume_ratio * min(vol_i, vol_j)]; none
    otherwise. *)
Definition spec_rows (max_common_volume_ratio : Q) (volumes : list Q)
    (o : worker_output) : list csv_row :=
  let vi := nth (hi o) volumes 0 in
  let vj := nth (lo o) volumes 0 in
  let vc := vol_common (result o) in
  match status (result o) with
  | st_touching => [TouchRow (hi o) (lo o)]
  | st_overlap =>
      [OverlapRow (hi o) (lo o)
         (if Qltb (max_common_volume_ratio * Qmin vi vj) vc
          then "bad_overlap" else "overlap") vc vi vj]
  | _ => []
  end.

Definition count_status (st : intersect_status) (outputs : list worker_output) : nat :=
  length (List.filter (fun o => intersect_status_eqb (status (result o)) st) outputs).

End OverlapChecker.

(* ------------------------------------------------------------------ *)
(** ** Imprinting: [perform_solid_imprinting] (part_019 l.536-646) and the
    imprinter's [imprint] loop (create_graveyard.cpp l.64-167) *)

Module Imprint.

(** A solid as the set of unit voxels it fills; the empty set is also the
    null [TopoDS_Shape] the result fields start with. *)
Abbreviation solid := (gset (Z * Z * Z)).

(** [volume_of_shape]: the number of voxels (never negative here, so its
    [throw] is unreachable). *)
Definition volume_of_shape (s : solid) : Z := Z.of_nat (size s).

(** [shape_has_verticies] on the COMMON result. *)
Definition shape_has_verticies (s : solid) : bool := negb (bool_decide (s = ∅)).

Inductive bop := BOP_COMMON | BOP_CUT | BOP_CUT21 | BOP_FUSE.

(** When the kernel reports errors: the pave filler for a pair and fuzzy
    value, and each boolean operation for its two arguments. *)
Record kernel_faults := mk_faults {
  filler_has_errors : solid -> solid -> Q -> bool;
  op_has_errors : bop -> solid -> solid -> bool;
}.

Definition no_faults : kernel_faults :=
  mk_faults (fun _ _ _ => false) (fun _ _ _ => false).

Inductive imprint_status :=
  | imp_failed | imp_distinct | merge_into_shape | merge_into_tool.

Definition imprint_status_eqb (a b : imprint_status) : bool :=
  match a, b with
  | imp_failed, imp_failed | imp_distinct, imp_distinct
  | merge_into_shape, merge_into_shape | merge_into_tool, merge_into_tool => true
  | _, _ => false
  end.

(** [imprint_result] (geometry.hpp l.120-135) without the diagnostic fields. *)
Record imprint_result := mk_imprint_result {
  istatus : imprint_status;
  ivol_common : Z;
  ivol_cut : Z;
  ivol_cut12 : Z;
  ishape : solid;
  itool : solid;
}.

Definition perform_solid_imprinting (F : kernel_faults) (shape tool : solid)
    (fuzzy_value : Q) : imprint_result :=
  let result := mk_imprint_result imp_failed (-1) (-1) (-1) ∅ ∅ in
  if filler_has_errors F shape tool fuzzy_value then result
  else if op_has_errors F BOP_COMMON shape tool then result
  else
    let common := shape ∩ tool in
    let vc := volume_of_shape common in
    if op_has_errors F BOP_CUT shape tool
    then mk_imprint_result imp_failed vc (-1) (-1) ∅ ∅
    else
    let r_shape := shape ∖ tool in
    let vcut := volume_of_shape r_shape in
    if op_has_errors F BOP_CUT21 shape tool
    then mk_imprint_result imp_failed vc vcut (-1) r_shape ∅
    else
    let r_tool := tool ∖ shape in
    let vcut12 := volume_of_shape r_tool in
    if negb (shape_has_verticies common)
    then mk_imprint_result imp_distinct vc vcut vcut12 r_shape r_tool
    else
      (* merge the common volume into the larger shape *)
      let merge_into := (vcut12 <=? vcut)%Z in
      let arg := if merge_into then r_shape else r_tool in
      if op_has_errors F BOP_FUSE arg common
      then mk_imprint_result imp_failed vc vcut vcut12 r_shape r_tool
      else if merge_into
      then mk_imprint_result merge_into_shape vc vcut vcut12 (arg ∪ common) r_tool
      else mk_imprint_result merge_into_tool vc vcut vcut12 r_shape (arg ∪ common).

(** [cube_at] of the test suites: [BRepPrimAPI_MakeBox] at corner
    [(x, y, z)] with side [len]. *)
Definition cube_at (x y z len : Z) : solid :=
  list_to_set
    (flat_map (fun i => flat_map (fun j => map (fun k => (i, j, k))
       (seqZ z len)) (seqZ y len)) (seqZ x len)).

(** *** [int_of_string] (utils.cpp l.137-154) with [base = 0]: [strtol]
    skips white space, takes a sign, detects a [0x] (hex) or [0] (octal)
    prefix, reads the longest run of digits; the call succeeds when the
    whole (non-empty) string was read and the value fits an [int]. *)

Definition is_space (c : ascii) : bool :=
  match nat_of_ascii c with
  | 32%nat | 9%nat | 10%nat | 11%nat | 12%nat | 13%nat => true
  | _ => false
  end.

Definition digit_value (c : ascii) : option Z :=
  let n := nat_of_ascii c in
  if ((48 <=? n) && (n <=? 57))%nat then Some (Z.of_nat (n - 48))
  else if ((97 <=? n) && (n <=? 122))%nat then Some (Z.of_nat (n - 87))
  else if ((65 <=? n) && (n <=? 90))%nat then Some (Z.of_nat (n - 55))
  else None.

Definition is_digit_in (base : Z) (c : ascii) : bool :=
  match digit_value c with Some d => (d <? base)%Z | None => false end.

Fixpoint read_digits (base acc : Z) (cs : list ascii) : Z * list ascii :=
  match cs with
  | c :: rest =>
      match digit_value c with
      | Some d => if (d <? base)%Z then read_digits base (acc * base + d) rest
                  else (acc, cs)
      | None => (acc, cs)
      end
  | [] => (acc, cs)
  end.

Fixpoint skip_space (cs : list ascii) : list ascii :=
  match cs with
  | c :: rest => if is_space c then skip_space rest else cs
  | [] => []
  end.

(** [strtol(s, &end, 0)]: the value and the characters left after [end];
    with no digits [end] is [s] itself. *)
Definition strtol0 (cs : list ascii) : Z * list ascii :=
  let body := skip_space cs in
  let '(sign, body) :=
    match body with
    | "-"%char :: r => ((-1)%Z, r)
    | "+"%char :: r => (1%Z, r)
    | _ => (1%Z, body)
    end in
  let '(v, rest, ok) :=
    match body with
    | "0"%char :: x :: c :: r =>
        if ((Ascii.eqb x "x"%char || Ascii.eqb x "X"%char) && is_digit_in 16 c)%bool
        then let '(v, rest) := read_digits 16 0 (c :: r) in (v, rest, true)
        else let '(v, rest) := read_digits 8 0 body in (v, rest, true)
    | c :: _ =>
        if Ascii.eqb c "0"%char
        then let '(v, rest) := read_digits 8 0 body in (v, rest, true)
        else if is_digit_in 10 c
        then let '(v, rest) := read_digits 10 0 body in (v, rest, true)
        else (0%Z, cs, false)
    | [] => (0%Z, cs, false)
    end in
  if ok then ((sign * v)%Z, rest) else (0%Z, cs).

Definition INT_MAX : Z := 2147483647.
Definition INT_MIN : Z := -2147483648.

Definition int_of_string (s : string) : option Z :=
  let cs := list_ascii_of_string s in
  let '(l, rest) := strtol0 cs in
  if (INT_MAX <? l)%Z then None
  else if (l <? INT_MIN)%Z then None
  else match cs, rest with
       | [], _ => None
       | _, _ :: _ => None
       | _, [] => Some l
       end.

(** [document::lookup_solid] (part_019 l.262-273); [None] is [-1]. *)
Definition lookup_solid (solid_shapes : list solid) (str : string) : option nat :=
  match int_of_string str with
  | None => None
  | Some idx =>
      if (idx <? 0)%Z then None
      else if (Z.of_nat (length solid_shapes) <=? idx)%Z then None
      else Some (Z.to_nat idx)
  end.

(** A call of [parse_next_row]: a parsed row, or [input_status::error];
    the end of the list is [end_of_file]. *)
Inductive row_event :=
  | Row (fields : list string)
  | RowError.

Record imprint_state := mk_imprint_state {
  solid_shapes : list solid;
  num_failed : Z;
}.

Inductive step_result :=
  | StepFatal                      (** [return 1] from inside the loop *)
  | StepNext (st : imprint_state).

(** The body of the [while] loop of [imprint] for one row. *)
Definition imprint_step (F : kernel_faults) (st : imprint_state)
    (fields : list string) : step_result :=
  match fields with
  | f0 :: f1 :: _ =>
      match lookup_solid (solid_shapes st) f0 with
      | None => StepFatal
      | Some first =>
      match lookup_solid (solid_shapes st) f1 with
      | None => StepFatal
      | Some second =>
          let res := perform_solid_imprinting F
                       (nth first (solid_shapes st) ∅)
                       (nth second (solid_shapes st) ∅) (1#100) in
          match istatus res with
          | imp_failed =>
              (* continue: the shapes are not put back into the document *)
              StepNext (mk_imprint_state (solid_shapes st) (num_failed st + 1))
          | _ =>
              StepNext (mk_imprint_state
                (<[second := itool res]> (<[first := ishape res]> (solid_shapes st)))
                (num_failed st))
          end
      end
      end
  | _ => StepFatal
  end.

Inductive loop_end :=
  | LoopFatal (st : imprint_state)
  | LoopEof (st : imprint_state).

Fixpoint imprint_loop (F : kernel_faults) (st : imprint_state)
    (input : list row_event) : loop_end :=
  match input with
  | [] => LoopEof st
  | RowError :: _ => LoopFatal st
  | Row fields :: rest =>
      match imprint_step F st fields with
      | StepFatal => LoopFatal st
      | StepNext st' => imprint_loop F st' rest
      end
  end.

(** [static int imprint(document &doc)]: the status and the document. *)
Definition imprint (F : kernel_faults) (doc : list solid)
    (input : list row_event) : Z * list solid :=
  match imprint_loop F (mk_imprint_state doc 0) input with
  | LoopFatal st => (1, solid_shapes st)
  | LoopEof st => if (0 <? num_failed st)%Z then (1, solid_shapes st)
                  else (0, solid_shapes st)
  end.

(** What a stage run leaves behind: its exit code and the BREP file it
    wrote, if any. *)
Record stage_result := mk_stage_result {
  exit_code : Z;
  written : option (list solid);
}.

(** The imprinter's [main] after argument parsing; [loaded] is the result
    of [load_brep_file], [None] when it called [std::exit(1)]. *)
Definition imprint_main (F : kernel_faults) (loaded : option (list solid))
    (input : list row_event) : stage_result :=
  match loaded with
  | None => mk_stage_result 1 None
  | Some doc =>
      let '(status, doc') := imprint F doc input in
      if negb (status =? 0)%Z then mk_stage_result status None
      else mk_stage_result 0 (Some doc')
  end.

End Imprint.

(* ------------------------------------------------------------------ *)
(** ** The merger's [main] (merge_solids.cpp l.21-97) *)

Module Merge.

Open Scope Q_scope.

Inductive merge_result (Shp : Type) :=
  | MergeWritten (out : list Shp)   (** [write_brep_file], [return 0] *)
  | MergeExit (code : Z)          (** [std::exit(code)] *)
  | MergeTerminate.               (** an uncaught [std::runtime_error] *)

Arguments MergeWritten {Shp} out.
Arguments MergeExit {Shp} code.
Arguments MergeTerminate {Shp}.

Section Merger.

Context {Shp : Type}.
(** The kernel's volume property of a shape (may come back negative). *)
Variable volume : Shp -> Q.
(** [salome_glue_shape(merged, 0.001)] followed by iterating the children
    of its result: the gluer itself is an input of the model. *)
Variable salome_glue_shape : list Shp -> list Shp.

(** [volume_of_shape] (part_019 l.118-126): [None] is the exception. *)
Definition volume_of_shape (s : Shp) : option Q :=
  let v := volume s in
  if Qle_bool 0 v then Some v else None.

(** The [for] loop of l.76-88: the number of solids whose volume changed by
    more than 0.1 % of the smaller one, or [None] if [volume_of_shape]
    threw. *)
Fixpoint count_changed (inp out : list Shp) : option nat :=
  match inp, out with
  | a :: inp', b :: out' =>
      match volume_of_shape a, volume_of_shape b with
      | Some v1, Some v2 =>
          let mn := Qmin v1 v2 * (1#1000) in
          match count_changed inp' out' with
          | None => None
          | Some n => Some (if Classify.Qltb mn (Qabs (v1 - v2)) then S n else n)
          end
      | _, _ => None
      end
  | _, _ => Some 0%nat
  end.

(** [main] from the loaded input document [inp] on. *)
Definition merge_main (inp : list Shp) : merge_result Shp :=
  let out := salome_glue_shape inp in
  if negb (Nat.eqb (length inp) (length out)) then MergeExit 1%Z
  else match count_changed inp out with
       | None => MergeTerminate
       | Some num_changed =>
           if (0 <? num_changed)%nat then MergeExit 1%Z else MergeWritten out
       end.

End Merger.

(** A run ends with a non-zero status unless it wrote its output. *)
Definition exits_nonzero {Shp} (r : merge_result Shp) : Prop :=
  match r with
  | MergeWritten _ => False
  | MergeExit code => code <> 0%Z
  | MergeTerminate => True
  end.

End Merge.

(* ------------------------------------------------------------------ *)
(** ** Concrete inputs used by the examples below *)

Module Fixtures.

Import Classify.
Open Scope Q_scope.

(** Two cubes sharing a face: no common solid, the section has vertices. *)
Definition kernel_touching : csi_kernel :=
  mk_csi_kernel 0 [] false false false 0 false 0 false 0 false true.

(** The pave filler fails (e.g. with a too large fuzzy value). *)
Definition kernel_filler_fails : csi_kernel :=
  mk_csi_kernel 0 [] true false false 0 false 0 false 0 false false.

(** COMMON comes back as a solid of volume -10 while both cuts have
    volume 1: far beyond the 10 % allowance. *)
Definition kernel_negative_common : csi_kernel :=
  mk_csi_kernel 0 [] false false true (-10) false 1 false 1 false false.

(** COMMON comes back as a solid of volume -1/20 with cuts of volume 1:
    within the 10 % allowance. *)
Definition kernel_small_negative_common : csi_kernel :=
  mk_csi_kernel 0 [] false false true (-(1#20)) false 1 false 1 false false.

(** The pave filler polls the indicator at 0 ms and 70 s after starting. *)
Definition kernel_slow : csi_kernel :=
  mk_csi_kernel 0 [0%Z; 70000%Z] false false false 0 false 0 false 0 false false.

(** The ladder [0.001, 0]: the filler fails at 0.001 and the pair is found
    touching at 0. *)
Definition kernel_ladder (fv : Q) : csi_kernel :=
  if Qeq_bool fv (1#1000) then kernel_filler_fails else kernel_touching.

(** The imprint test "two objects overlapping at corner": a cube of side 5
    at the origin and a cube of side 2 at (4, 4, 4), fuzzy value 0.1. *)
Definition corner_shape : Imprint.solid := Imprint.cube_at 0 0 0 5.
Definition corner_tool : Imprint.solid := Imprint.cube_at 4 4 4 2.
Definition corner_doc : list Imprint.solid := [corner_shape; corner_tool].

End Fixtures.

(* ------------------------------------------------------------------ *)
(** ** CSV input: [parse_csv_row] and [parse_next_row] (utils.cpp
    l.224-327) *)

Module Csv.

Import Imprint.

Definition dquote : ascii := "034"%char.
Definition comma : ascii := ","%char.
Definition newline : ascii := "010"%char.

Inductive CSVState := UnquotedField | QuotedField | QuotedQuote.

(** The [for (char c : row)] loop of [parse_csv_row]. The vector [fields]
    is [done ++ [cur]]: [cur] is [fields[i]], the only field ever extended,
    and [done] the fields before it. *)
Fixpoint parse_csv_go (state : CSVState) (done : list (list ascii))
    (cur : list ascii) (row : list ascii) : list (list ascii) :=
  match row with
  | [] => done ++ [cur]
  | c :: rest =>
      match state with
      | UnquotedField =>
          if Ascii.eqb c comma then parse_csv_go UnquotedField (done ++ [cur]) [] rest
          else if Ascii.eqb c dquote then parse_csv_go QuotedField done cur rest
          else parse_csv_go UnquotedField done (cur ++ [c]) rest
      | QuotedField =>
          if Ascii.eqb c dquote then parse_csv_go QuotedQuote done cur rest
          else parse_csv_go QuotedField done (cur ++ [c]) rest
      | QuotedQuote =>
          if Ascii.eqb c comma then parse_csv_go UnquotedField (done ++ [cur]) [] rest
          else if Ascii.eqb c dquote then parse_csv_go QuotedField done (cur ++ [dquote]) rest
          else (* end of quote: [c] itself is dropped *)
            parse_csv_go UnquotedField done cur rest
      end
  end.

Definition parse_csv_row (row : string) : list string :=
  map string_of_list_ascii
    (parse_csv_go UnquotedField [] [] (list_ascii_of_string row)).

(** An [std::istream] as the characters not yet extracted and its
    [eofbit]; [badbit] (a failing device) is not modelled. *)
Record istream := mk_istream {
  buf : list ascii;
  eofbit : bool;
}.

(** [std::getline]: extract up to the first ['\n'], which is consumed but
    not stored; reaching the end of the input sets [eofbit]. *)
Fixpoint getline_go (acc : list ascii) (cs : list ascii) : list ascii * list ascii * bool :=
  match cs with
  | [] => (acc, [], true)
  | c :: rest =>
      if Ascii.eqb c newline then (acc, rest, false)
      else getline_go (acc ++ [c]) rest
  end.

(** [None] when [getline] sets [failbit]: the stream is already at its end
    or no character could be extracted. *)
Definition getline (is : istream) : option (list ascii) * istream :=
  if eofbit is then (None, is)
  else match buf is with
       | [] => (None, mk_istream [] true)
       | _ => let '(line, rest, eof) := getline_go [] (buf is) in
              (Some line, mk_istream rest eof)
       end.

Inductive input_status := error | end_of_file | success.

(** [parse_next_row(is, row)]: [row] is only assigned on success. *)
Definition parse_next_row (is : istream) (row : list string)
  : input_status * list string * istream :=
  if eofbit is then (end_of_file, row, is)
  else match getline is with
       | (None, is') => (end_of_file, row, is')
       | (Some line, is') =>
           (success, parse_csv_row (string_of_list_ascii line), is')
       end.

(** The rows the imprinter's [while] loop receives from [parse_next_row]
    until it stops returning [success]; [fuel] bounds the number of calls. *)
Fixpoint read_rows (fuel : nat) (is : istream) (row : list string) : list row_event :=
  match fuel with
  | O => []
  | S fuel' =>
      match parse_next_row is row with
      | (success, row', is') => Row row' :: read_rows fuel' is' row'
      | (error, _, _) => [RowError]
      | (end_of_file, _, _) => []
      end
  end.

(** Standard input holding [text]: one call per line and one more to see
    the end of the input. *)
Definition stdin_rows (text : list ascii) : list row_event :=
  read_rows (S (length text)) (mk_istream text false) [].

(** A text made of the given lines, each ended by ['\n']. *)
Definition unlines (ls : list (list ascii)) : list ascii :=
  concat (map (fun l => l ++ [newline]) ls).

(** A field written between double quotes, its double quotes doubled. *)
Fixpoint escape_quotes (f : list ascii) : list ascii :=
  match f with
  | [] => []
  | c :: rest =>
      if Ascii.eqb c dquote then dquote :: dquote :: escape_quotes rest
      else c :: escape_quotes rest
  end.

Definition quote_field (f : list ascii) : list ascii :=
  dquote :: escape_quotes f ++ [dquote].

(** Fields joined by commas. *)
Fixpoint join_fields (fs : list (list ascii)) : list ascii :=
  match fs with
  | [] => []
  | [f] => f
  | f :: rest => f ++ comma :: join_fields rest
  end.

End Csv.

(* ------------------------------------------------------------------ *)
(** ** The overlap checker's standard output (part_018 l.350-380) *)

Module Emit.

Import OverlapChecker Csv.
Open Scope Q_scope.

Definition digit_char (d : N) : ascii := ascii_of_N (48 + d).

(** The decimal digits of [n], most significant first; enough [fuel] is
    the number of bits of [n]. *)
Fixpoint decimal_digits (fuel : nat) (n : N) : list N :=
  match fuel with
  | O => [n]
  | S fuel' =>
      if (n <? 10)%N then [n]
      else decimal_digits fuel' (n / 10)%N ++ [(n mod 10)%N]
  end.

(** [std::ostream << n] for an unsigned integer. *)
Definition show_N (n : N) : list ascii :=
  map digit_char (decimal_digits (N.size_nat n) n).

Definition show_nat (n : nat) : list ascii := show_N (N.of_nat n).

(** [std::ostream << i] for a signed integer. *)
Definition show_Z (i : Z) : list ascii :=
  if (i <? 0)%Z then "-"%char :: show_N (Z.to_N (- i))
  else show_N (Z.to_N i).

(** Rounding of a non-negative value to the nearest integer, ties to
    even. *)
Definition round_half_even (q : Q) : Z :=
  let f := Qfloor q in
  let r := q - inject_Z f in
  if Classify.Qltb r (1#2) then f
  else if Classify.Qltb (1#2) r then (f + 1)%Z
  else if Z.even f then f else (f + 1)%Z.

(** [std::fixed] with precision 2 ([printf("%.2f")]). *)
Definition show_fixed2 (q : Q) : list ascii :=
  let m := round_half_even (Qabs q * 100) in
  (if Classify.Qltb q 0 then ["-"%char] else []) ++
  show_N (Z.to_N (m / 100)) ++ ["."%char] ++
  [digit_char (Z.to_N ((m mod 100) / 10)); digit_char (Z.to_N (m mod 10))].

(** The line printed for a row, without its ['\n']. *)
Definition show_row (r : csv_row) : list ascii :=
  match r with
  | TouchRow h l => show_nat h ++ comma :: show_nat l ++ list_ascii_of_string ",touch"
  | OverlapRow h l state vc vh vl =>
      show_nat h ++ comma :: show_nat l ++ comma :: list_ascii_of_string state ++
      comma :: show_fixed2 vc ++ comma :: show_fixed2 vh ++ comma :: show_fixed2 vl
  end.

Definition row_hi (r : csv_row) : nat :=
  match r with TouchRow h _ | OverlapRow h _ _ _ _ _ => h end.

Definition row_lo (r : csv_row) : nat :=
  match r with TouchRow _ l | OverlapRow _ l _ _ _ _ => l end.

(** Everything the checker writes to [std::cout]. *)
Definition stdout_text (s : report_state) : list ascii :=
  unlines (map show_row (rows s)).

End Emit.

(* ------------------------------------------------------------------ *)
(** ** Candidate pairs of the overlap checker (part_018 l.271-292) *)

Module Pairs.

(** One iteration of the inner loop; [disjoint hi lo] is
    [are_bboxs_disjoint(bounding_boxes[hi], bounding_boxes[lo],
    bbox_clearance)]. The state is [num_bbox_tests] and the pairs
    submitted to the pool, in order. *)
Definition pair_step (disjoint : nat -> nat -> bool) (hi : nat)
    (acc : nat * list (nat * nat)) (lo : nat) : nat * list (nat * nat) :=
  let '(num_bbox_tests, submitted) := acc in
  if disjoint hi lo then (S num_bbox_tests, submitted)
  else (S num_bbox_tests, submitted ++ [(hi, lo)]).

(** [for (hi = 1; hi < n; hi++) for (lo = 0; lo < hi; lo++)]. *)
Definition submit_pairs (n : nat) (disjoint : nat -> nat -> bool)
  : nat * list (nat * nat) :=
  fold_left (fun acc hi => fold_left (pair_step disjoint hi) (seq 0 hi) acc)
    (seq 1 (n - 1)) (0%nat, []).

End Pairs.

(* ------------------------------------------------------------------ *)
(** ** [are_vals_close] (utils.cpp l.103-117) and writing a BREP file
    (part_019 l.190-208) *)

Module Misc.

Open Scope Q_scope.

(** [None] is a failed [assert] (an [abort()]). *)
Definition are_vals_close (a b drel dabs : Q) : option bool :=
  if negb (Qle_bool 0 drel) then None
  else if negb (Qle_bool 0 dabs) then None
  else if negb (Classify.Qltb 0 drel || Classify.Qltb 0 dabs) then None
  else
    let mag := Qmax (Qabs a) (Qabs b) in
    Some (Classify.Qltb (Qabs (b - a)) (drel * mag + dabs)).

Inductive write_result :=
  | WriteExit (code : Z)
  | Written (file : Brep.TopoDS_Shape).

(** [document::write_brep_file]: the solids are added to a fresh COMPOUND,
    which [BRepTools::Write] stores ([write_ok]) or fails to store. *)
Definition write_brep_file (write_ok : bool) (solid_shapes : list Brep.TopoDS_Shape)
  : write_result :=
  let merged := Brep.MkShape Brep.TopAbs_COMPOUND solid_shapes in
  if write_ok then Written merged else WriteExit 1.

End Misc.

(* ================================================================== *)
(** * Properties *)

Module BrepFacts.

Import Brep.

Lemma push_children_spec (acc kids : list TopoDS_Shape) :
  push_children acc kids =
  if forallb (fun k => child_type_ok (ShapeType k)) kids
  then Loaded (acc ++ kids) else LoadExit 1.
Proof.
  revert acc; induction kids as [|k kids IH]; intros acc; simpl.
  - by rewrite app_nil_r.
  - destruct k as [t ks]; simpl.
    destruct t; simpl; try reflexivity;
      rewrite IH, <- app_assoc; reflexivity.
Qed.

(** C7 (counterexample): a COMPOUND whose only child is itself a COMPOUND
    loads successfully, although COMPOUND is not a SOLID or COMPSOLID. *)
Lemma load_brep_file_compound_child :
  spec_child_type_ok TopAbs_COMPOUND = false /\
  load_brep_file (Some (MkShape TopAbs_COMPOUND [MkShape TopAbs_COMPOUND []]))
  = Loaded [MkShape TopAbs_COMPOUND []].
Proof. split; reflexivity. Qed.

(** C7 (amended): loading succeeds exactly when the file is read, the
    top-level shape is a COMPOUND or COMPSOLID and every immediate child is
    a COMPOUND, COMPSOLID or SOLID; the document then holds those children
    in order.  In every other case the loader calls [std::exit(1)]. *)
Theorem load_brep_file_accepts (read : option TopoDS_Shape) :
  load_brep_file read =
  match read with
  | Some (MkShape t kids) =>
      if top_type_ok t && forallb (fun k => child_type_ok (ShapeType k)) kids
      then Loaded kids else LoadExit 1
  | None => LoadExit 1
  end.
Proof.
  destruct read as [[t kids]|]; simpl; [|reflexivity].
  destruct t; simpl; try reflexivity; rewrite push_children_spec; reflexivity.
Qed.

End BrepFacts.

Module ClassifyFacts.

Import Classify.
Open Scope Q_scope.

Lemma Qltb_spec (a b : Q) : Qltb a b = true <-> a < b.
Proof.
  unfold Qltb. rewrite negb_true_iff.
  split; intros H.
  - apply Qnot_le_lt. intros Hle. apply Qle_bool_iff in Hle. congruence.
  - destruct (Qle_bool b a) eqn:E; [|reflexivity].
    apply Qle_bool_iff in E. exfalso. apply (Qlt_not_le _ _ H E).
Qed.

Lemma Qltb_false (a b : Q) : Qltb a b = false <-> b <= a.
Proof.
  unfold Qltb. rewrite negb_false_iff. apply Qle_bool_iff.
Qed.

Lemma intersect_status_eqb_true (a b : intersect_status) :
  intersect_status_eqb a b = true <-> a = b.
Proof. destruct a, b; simpl; split; congruence. Qed.

(** With a zero pave time no indicator is attached, so nothing expires. *)
Lemma no_timeout_when_zero (k : csi_kernel) :
  expired_ (filler_Perform k (timeout_begin (k_start k) 0%N timeout_init)) = false.
Proof. reflexivity. Qed.

(** C10: with [pave_time_millisecs = 0], [classify_solid_intersection]
    never returns [timeout]: whatever it returns is failed, distinct,
    touching or overlap. *)
Theorem classify_zero_timeout_never_timeout (k : csi_kernel) (fv : Q)
    (r : intersect_result) :
  classify_solid_intersection k fv 0%N = Returned r ->
  status r = st_failed \/ status r = st_distinct \/
  status r = st_touching \/ status r = st_overlap.
Proof.
  destruct k as [start polls fe ce cs cv cte ctv c21e c21v se sv].
  unfold classify_solid_intersection, volume_of_shape; simpl.
  destruct fe; [intros H; injection H as <-; simpl; tauto|].
  destruct ce; [intros H; injection H as <-; simpl; tauto|].
  destruct cs.
  - destruct cte; [intros H; injection H as <-; simpl; tauto|].
    destruct (Qltb ctv 0); [discriminate|].
    destruct c21e; [intros H; injection H as <-; simpl; tauto|].
    destruct (Qltb c21v 0); [discriminate|].
    destruct (Qltb cv 0).
    + destruct (Qltb _ _); [discriminate|].
      intros H; injection H as <-; simpl; tauto.
    + intros H; injection H as <-; simpl; tauto.
  - destruct se; [intros H; injection H as <-; simpl; tauto|].
    intros H; injection H as <-; simpl; destruct sv; tauto.
Qed.

(** C10 witness: a touching pair classified with no time limit. *)
Lemma classify_zero_timeout_never_timeout_witness :
  classify_solid_intersection Fixtures.kernel_touching (1#2) 0%N
    = Returned (mk_intersect_result st_touching (-1) (-1) (-1)) /\
  (st_touching = st_failed \/ st_touching = st_distinct \/
   st_touching = st_touching \/ st_touching = st_overlap).
Proof.
  split; [reflexivity|].
  apply (classify_zero_timeout_never_timeout Fixtures.kernel_touching (1#2)
           (mk_intersect_result st_touching (-1) (-1) (-1))).
  reflexivity.
Defined.

Definition returns_failed (kernel : Q -> csi_kernel) (ms : N) (f : Q) : Prop :=
  exists r, classify_solid_intersection (kernel f) f ms = Returned r /\
            status r = st_failed.

Lemma ladder_first_success (kernel : Q -> csi_kernel) (ms : N)
    (pre post : list Q) (fv : Q) (r res : intersect_result) (calls : list Q) :
  Forall (returns_failed kernel ms) pre ->
  classify_solid_intersection (kernel fv) fv ms = Returned r ->
  status r <> st_failed ->
  ladder kernel ms (pre ++ fv :: post) res calls
    = (calls ++ pre ++ [fv], Classified r).
Proof.
  intros Hpre Hfv Hst. revert res calls.
  induction Hpre as [|f pre [r' [Hf Hr']] _ IH]; intros res calls; simpl.
  - rewrite Hfv.
    destruct (intersect_status_eqb (status r) st_failed) eqn:E.
    + apply intersect_status_eqb_true in E; contradiction.
    + reflexivity.
  - rewrite Hf, Hr'; simpl. rewrite IH, <- app_assoc; reflexivity.
Qed.

Lemma ladder_all_failed (kernel : Q -> csi_kernel) (ms : N)
    (fvs : list Q) (res r : intersect_result) (calls calls' : list Q) :
  ladder kernel ms fvs res calls = (calls', Classified r) ->
  status r = st_failed ->
  calls' = calls ++ fvs /\ Forall (returns_failed kernel ms) fvs /\
  (fvs = [] -> r = res).
Proof.
  revert res calls. induction fvs as [|fv rest IH]; intros res calls; simpl.
  - intros H _; injection H as <- <-. rewrite app_nil_r.
    split; [reflexivity|split; [constructor|auto]].
  - destruct (classify_solid_intersection (kernel fv) fv ms) as [r'|w] eqn:E;
      [|discriminate].
    destruct (intersect_status_eqb (status r') st_failed) eqn:Es.
    + intros H Hr. apply intersect_status_eqb_true in Es.
      destruct (IH _ _ H Hr) as [Hc [Hf _]].
      split; [rewrite Hc, <- app_assoc; reflexivity|].
      split; [|discriminate].
      constructor; [exists r'; auto|exact Hf].
    + intros H Hr; injection H as _ <-.
      rewrite Hr in Es; discriminate.
Qed.

(** C3: the classifier calls [classify_solid_intersection] with the fuzzy
    values in list order and stops at the first call whose status is not
    failed, returning that result (so a timeout is never retried); the
    pair ends up failed only when the call for every fuzzy value of the
    (non-empty) list returned failed. *)
Theorem shape_classifier_tolerance_ladder :
  (forall (kernel : Q -> csi_kernel) (ms : N) (pre post : list Q) (fv : Q)
          (r : intersect_result),
     Forall (returns_failed kernel ms) pre ->
     classify_solid_intersection (kernel fv) fv ms = Returned r ->
     status r <> st_failed ->
     shape_classifier kernel ms (pre ++ fv :: post) = (pre ++ [fv], Classified r)) /\
  (forall (kernel : Q -> csi_kernel) (ms : N) (fvs calls : list Q)
          (r : intersect_result),
     fvs <> [] ->
     shape_classifier kernel ms fvs = (calls, Classified r) ->
     status r = st_failed ->
     calls = fvs /\ Forall (returns_failed kernel ms) fvs).
Proof.
  split.
  - intros kernel ms pre post fv r Hpre Hfv Hst.
    unfold shape_classifier.
    rewrite (ladder_first_success kernel ms pre post fv r uninit_result [] Hpre Hfv Hst).
    reflexivity.
  - intros kernel ms fvs calls r Hne H Hr.
    destruct (ladder_all_failed kernel ms fvs uninit_result r [] calls H Hr)
      as [Hc [Hf _]].
    split; [exact Hc|exact Hf].
Qed.

(** C3 witness: on the ladder [0.001, 0] the filler fails at 0.001 and the
    retry at 0 finds the pair touching. *)
Lemma shape_classifier_tolerance_ladder_witness :
  shape_classifier Fixtures.kernel_ladder 60000%N [1#1000; 0]
    = ([1#1000; 0], Classified (mk_intersect_result st_touching (-1) (-1) (-1))).
Proof.
  apply (proj1 shape_classifier_tolerance_ladder Fixtures.kernel_ladder 60000%N
           [1#1000] [] 0 (mk_intersect_result st_touching (-1) (-1) (-1))).
  - constructor; [|constructor].
    exists (mk_intersect_result st_failed (-1) (-1) (-1)). split; reflexivity.
  - reflexivity.
  - discriminate.
Defined.

(** C2 (counterexample): COMMON yields a solid of volume -10 with both cuts
    of volume 1, so [|vol_common| > 0.1 * min(vol_cut, vol_cut12)]; the
    exception this raises is not recorded as a failed pair: the classifier
    aborts the process. *)
Lemma negative_common_aborts :
  0.1 * Qmin 1 1 < Qabs (-10) /\
  snd (shape_classifier (fun _ => Fixtures.kernel_negative_common) 60000%N [1#1000; 0])
    = Aborted.
Proof. split; [reflexivity|reflexivity]. Qed.

(** The path to the cut volumes of [classify_solid_intersection]: no
    timeout, the filler and COMMON succeed, COMMON holds a solid, both cuts
    succeed with non-negative volumes. *)
Definition reaches_cut_volumes (k : csi_kernel) (ms : N) : Prop :=
  expired_ (filler_Perform k (timeout_begin (k_start k) ms timeout_init)) = false /\
  k_filler_has_errors k = false /\ k_common_has_errors k = false /\
  k_common_has_solid k = true /\
  k_cut_has_errors k = false /\ k_cut21_has_errors k = false /\
  0 <= k_cut_volume k /\ 0 <= k_cut21_volume k.

Lemma classify_cut_path (k : csi_kernel) (fv : Q) (ms : N) :
  reaches_cut_volumes k ms ->
  classify_solid_intersection k fv ms =
  let vc := k_common_volume k in
  let vcut := k_cut_volume k in
  let vcut12 := k_cut21_volume k in
  if Qltb vc 0 then
    if Qltb (Qmin vcut vcut12 * (1#10)) (- vc) then Threw "negative volume too large"
    else Returned (mk_intersect_result st_touching vc vcut vcut12)
  else Returned (mk_intersect_result st_overlap vc vcut vcut12).
Proof.
  intros (Hexp & Hf & Hc & Hs & Hcut & Hcut21 & Hv & Hv21).
  unfold classify_solid_intersection, volume_of_shape.
  cbv zeta. rewrite Hexp, Hf, Hc, Hs, Hcut, Hcut21.
  assert (E1 : Qltb (k_cut_volume k) 0 = false) by (apply Qltb_false; exact Hv).
  assert (E2 : Qltb (k_cut21_volume k) 0 = false) by (apply Qltb_false; exact Hv21).
  rewrite E1, E2. reflexivity.
Qed.

Lemma ladder_first_throw (kernel : Q -> csi_kernel) (ms : N)
    (pre post : list Q) (fv : Q) (what : string) (res : intersect_result)
    (calls : list Q) :
  Forall (returns_failed kernel ms) pre ->
  classify_solid_intersection (kernel fv) fv ms = Threw what ->
  ladder kernel ms (pre ++ fv :: post) res calls = (calls ++ pre ++ [fv], Aborted).
Proof.
  intros Hpre Hfv. revert res calls.
  induction Hpre as [|f pre [r' [Hf Hr']] _ IH]; intros res calls; simpl.
  - rewrite Hfv. reflexivity.
  - rewrite Hf, Hr'; simpl. rewrite IH, <- app_assoc; reflexivity.
Qed.

(** C2 (amended): when COMMON yields a solid of negative volume [vc] and both
    cuts succeed with volumes [vcut], [vcut12]: if [|vc| <= 0.1 * min(vcut,
    vcut12)] the call returns touching; otherwise it throws, and the
    classifier, reaching that call after failed attempts only, aborts the
    whole process. *)
Theorem negative_common_volume (k : csi_kernel) (fv : Q) (ms : N) :
  reaches_cut_volumes k ms ->
  k_common_volume k < 0 ->
  (Qabs (k_common_volume k) <= 0.1 * Qmin (k_cut_volume k) (k_cut21_volume k) ->
   exists r, classify_solid_intersection k fv ms = Returned r /\
             status r = st_touching) /\
  (0.1 * Qmin (k_cut_volume k) (k_cut21_volume k) < Qabs (k_common_volume k) ->
   (exists what, classify_solid_intersection k fv ms = Threw what) /\
   forall (kernel : Q -> csi_kernel) (pre post : list Q),
     kernel fv = k ->
     Forall (returns_failed kernel ms) pre ->
     shape_classifier kernel ms (pre ++ fv :: post) = (pre ++ [fv], Aborted)).
Proof.
  intros Hpath Hneg.
  pose proof (classify_cut_path k fv ms Hpath) as Hc. cbv zeta in Hc.
  assert (En : Qltb (k_common_volume k) 0 = true) by (apply Qltb_spec; exact Hneg).
  rewrite En in Hc.
  rewrite (Qabs_neg (k_common_volume k)) by (apply Qlt_le_weak; exact Hneg).
  assert (Hm : forall a b : Q, 0.1 * Qmin a b == Qmin a b * (1#10))
    by (intros a b; rewrite Qmult_comm; reflexivity).
  split.
  - intros Hle.
    assert (E : Qltb (Qmin (k_cut_volume k) (k_cut21_volume k) * (1#10))
                     (- k_common_volume k) = false).
    { apply Qltb_false. rewrite <- Hm. exact Hle. }
    rewrite E in Hc. eexists; split; [exact Hc|reflexivity].
  - intros Hlt.
    assert (E : Qltb (Qmin (k_cut_volume k) (k_cut21_volume k) * (1#10))
                     (- k_common_volume k) = true).
    { apply Qltb_spec. rewrite <- Hm. exact Hlt. }
    rewrite E in Hc. split; [eexists; exact Hc|].
    intros kernel pre post Hk Hpre. unfold shape_classifier.
    rewrite <- Hk in Hc.
    exact (ladder_first_throw kernel ms pre post fv _ uninit_result [] Hpre Hc).
Qed.

Ltac decide_Q :=
  first [ apply Qle_bool_iff; reflexivity | apply Qltb_spec; reflexivity ].

(** C2 witness: both branches, with a 60 s pave time. *)
Lemma negative_common_volume_witness :
  (exists r, classify_solid_intersection Fixtures.kernel_small_negative_common
               (1#1000) 60000%N = Returned r /\ status r = st_touching) /\
  shape_classifier (fun _ => Fixtures.kernel_negative_common) 60000%N
    ([] ++ (1#1000) :: [0]) = ([] ++ [1#1000], Aborted).
Proof.
  split.
  - apply (proj1 (negative_common_volume Fixtures.kernel_small_negative_common
                    (1#1000) 60000%N
                    ltac:(repeat split; try reflexivity; decide_Q)
                    ltac:(decide_Q))).
    decide_Q.
  - apply (proj2 (proj2 (negative_common_volume Fixtures.kernel_negative_common
                    (1#1000) 60000%N
                    ltac:(repeat split; try reflexivity; decide_Q)
                    ltac:(decide_Q)) ltac:(decide_Q))).
    + reflexivity.
    + constructor.
Defined.

End ClassifyFacts.

Module OverlapCheckerFacts.

Import Classify ClassifyFacts OverlapChecker.
Open Scope Q_scope.

Lemma Qltb_compat (a a' b b' : Q) :
  a == a' -> b == b' -> Qltb a b = Qltb a' b'.
Proof.
  intros Ha Hb.
  destruct (Qltb a' b') eqn:E.
  - apply Qltb_spec in E. apply Qltb_spec. rewrite Ha, Hb. exact E.
  - apply Qltb_false in E. apply Qltb_false. rewrite Ha, Hb. exact E.
Qed.

Definition failed_or_timeout (o : worker_output) : nat :=
  match status (result o) with
  | st_failed | st_timeout => 1%nat
  | _ => 0%nat
  end.

Lemma report_one_spec (R : Q) (volumes : list Q) (s : report_state)
    (o : worker_output) :
  let s' := report_one R volumes s o in
  rows s' = rows s ++ spec_rows R volumes o /\
  num_failed s' = (num_failed s + failed_or_timeout o)%nat /\
  num_bad_overlaps s' =
    (num_bad_overlaps s + length (List.filter is_bad_row (spec_rows R volumes o)))%nat.
Proof.
  destruct s as [rs np nf nt no nb], o as [h l [st vc vcut vcut12]].
  unfold report_one, spec_rows, failed_or_timeout; simpl.
  destruct st; simpl.
  1-3: rewrite app_nil_r; split; [reflexivity|split; lia].
  - split; [reflexivity|split; lia].
  - rewrite (Qltb_compat (Qmin (nth h volumes 0) (nth l volumes 0) * R)
                         (R * Qmin (nth h volumes 0) (nth l volumes 0)) vc vc)
      by (apply Qmult_comm || reflexivity).
    destruct (Qltb _ vc); simpl; (split; [reflexivity|split; lia]).
Qed.

Lemma report_fold_spec (R : Q) (volumes : list Q) (outputs : list worker_output)
    (s : report_state) :
  let s' := fold_left (report_one R volumes) outputs s in
  rows s' = rows s ++ flat_map (spec_rows R volumes) outputs /\
  num_failed s' = (num_failed s + list_sum (map failed_or_timeout outputs))%nat /\
  num_bad_overlaps s' = (num_bad_overlaps s +
    length (List.filter is_bad_row (flat_map (spec_rows R volumes) outputs)))%nat.
Proof.
  revert s. induction outputs as [|o outputs IH]; intros s; simpl.
  - rewrite app_nil_r. split; [reflexivity|split; lia].
  - destruct (report_one_spec R volumes s o) as (H1 & H2 & H3).
    destruct (IH (report_one R volumes s o)) as (I1 & I2 & I3).
    rewrite I1, I2, I3, H1, H2, H3, <- app_assoc, List.filter_app, length_app.
    split; [reflexivity|split; lia].
Qed.

Lemma count_failed_or_timeout (outputs : list worker_output) :
  list_sum (map failed_or_timeout outputs) =
  (count_status st_failed outputs + count_status st_timeout outputs)%nat.
Proof.
  unfold count_status, list_sum.
  induction outputs as [|o outputs IH]; [reflexivity|].
  simpl. rewrite IH.
  unfold failed_or_timeout.
  destruct (status (result o)); simpl; lia.
Qed.

(** C8 (counterexample): a single pair whose classification timed out makes
    the checker exit with 1 although no row is [bad_overlap] and no
    classification has status failed. *)
Lemma timeout_only_exits_nonzero :
  let outputs := [mk_worker_output 1 0 (mk_intersect_result st_timeout (-1) (-1) (-1))] in
  let s := report_all (1#100) [1; 1] outputs in
  report_exit s = 1%Z /\
  (length (List.filter is_bad_row (rows s)) + count_status st_failed outputs = 0)%nat.
Proof. split; reflexivity. Qed.

(** C8 (amended): every overlapping pair gets one CSV row whose state is
    [bad_overlap] exactly when [vol_common > R * min(vol_i, vol_j)] and
    [overlap] otherwise (touching pairs get a [touch] row, other pairs
    none), and the checker exits non-zero exactly when the number of
    [bad_overlap] rows plus the number of classifications with status
    failed or timeout is non-zero. *)
Theorem report_rows_and_exit (R : Q) (volumes : list Q)
    (outputs : list worker_output) :
  let s := report_all R volumes outputs in
  rows s = flat_map (spec_rows R volumes) outputs /\
  (report_exit s <> 0%Z <->
   (length (List.filter is_bad_row (rows s)) + count_status st_failed outputs
    + count_status st_timeout outputs <> 0)%nat).
Proof.
  cbv zeta. unfold report_all.
  destruct (report_fold_spec R volumes outputs report_init) as (H1 & H2 & H3).
  simpl in H1, H2, H3. rewrite H1.
  split; [reflexivity|].
  unfold report_exit. rewrite H2, H3, count_failed_or_timeout.
  destruct (Nat.eqb_spec (count_status st_failed outputs
                          + count_status st_timeout outputs) 0);
  destruct (Nat.eqb_spec (length (List.filter is_bad_row
                            (flat_map (spec_rows R volumes) outputs))) 0);
  simpl; split; intros; try lia; congruence.
Qed.

(** C9: the ratio check accepts [R = 0] and [R = 1] with the default
    tolerance ladder and clearance, although its message asks for a ratio
    in the open interval (0, 1). *)
Theorem ratio_bounds_accepted :
  check_config [1#1000; 0] (1#2) 0 = None /\
  check_config [1#1000; 0] (1#2) 1 = None.
Proof. split; reflexivity. Qed.

(** The ratios the check accepts are exactly those of the closed interval
    [0, 1]. *)
Lemma check_config_ratio (tols : list Q) (bbox R : Q) :
  check_tolerances tols = None ->
  (check_config tols bbox R = None <-> 0 <= R /\ R <= 1).
Proof.
  intros Ht. unfold check_config. rewrite Ht.
  destruct (Qle_bool 0 R) eqn:E1; destruct (Qle_bool R 1) eqn:E2; simpl;
    rewrite <- ?Qle_bool_iff, ?E1, ?E2; split; intros H; try discriminate;
    try tauto; destruct H; discriminate.
Qed.

End OverlapCheckerFacts.

Module ImprintFacts.

Import Imprint.

Ltac voxel_ext :=
  apply leibniz_equiv; intros ?x;
  rewrite ?elem_of_union, ?elem_of_difference, ?elem_of_intersection.

Lemma cut_union_common (s t : solid) : (s ∖ t) ∪ (s ∩ t) = s.
Proof. voxel_ext. destruct (decide (x ∈ t)); tauto. Qed.

Lemma cut21_union_common (s t : solid) : (t ∖ s) ∪ (s ∩ t) = t.
Proof. voxel_ext. destruct (decide (x ∈ s)); tauto. Qed.

Lemma volume_cut21 (s t : solid) :
  volume_of_shape (t ∖ s) = (volume_of_shape t - volume_of_shape (s ∩ t))%Z.
Proof.
  unfold volume_of_shape.
  rewrite size_difference_alt, (intersection_comm_L t s).
  rewrite Nat2Z.inj_sub; [reflexivity|].
  apply subseteq_size. set_solver.
Qed.

Lemma volume_cut (s t : solid) :
  volume_of_shape (s ∖ t) = (volume_of_shape s - volume_of_shape (s ∩ t))%Z.
Proof.
  unfold volume_of_shape.
  rewrite size_difference_alt.
  rewrite Nat2Z.inj_sub; [reflexivity|].
  apply subseteq_size. set_solver.
Qed.

(** C1 (counterexample): the test "two objects overlapping at corner"
    ends in merge_into_shape with a common volume of 1, but the rewritten
    shape keeps the volume 125 of the input shape instead of 125 + 1, off by
    more than the fuzzy value 0.1. *)
Lemma imprint_corner_keeps_shape_volume :
  let r := perform_solid_imprinting no_faults Fixtures.corner_shape
             Fixtures.corner_tool (1#10) in
  istatus r = merge_into_shape /\ ivol_common r = 1%Z /\
  volume_of_shape (ishape r) = 125%Z /\ volume_of_shape (itool r) = 7%Z /\
  ~ (Qabs (inject_Z (volume_of_shape (ishape r))
           - inject_Z (volume_of_shape Fixtures.corner_shape + ivol_common r))
     <= 1#10)%Q.
Proof.
  vm_compute.
  split; [reflexivity|split; [reflexivity|split; [reflexivity|split; [reflexivity|]]]].
  intros H. apply H. reflexivity.
Qed.

(** C1 (amended): when imprinting returns merge_into_shape, the rewritten
    shape has exactly the volume of the input shape (its cut part with the
    common part fused back) and the rewritten tool has the volume of the
    input tool minus [vol_common]; symmetrically for merge_into_tool. *)
Theorem imprint_merge_volumes (F : kernel_faults) (s t : solid) (fz : Q) :
  let r := perform_solid_imprinting F s t fz in
  (istatus r = merge_into_shape ->
   volume_of_shape (ishape r) = volume_of_shape s /\
   volume_of_shape (itool r) = (volume_of_shape t - ivol_common r)%Z) /\
  (istatus r = merge_into_tool ->
   volume_of_shape (itool r) = volume_of_shape t /\
   volume_of_shape (ishape r) = (volume_of_shape s - ivol_common r)%Z).
Proof.
  unfold perform_solid_imprinting. cbv zeta.
  repeat case_match; simpl; split; intros Hst; try discriminate.
  - rewrite cut_union_common, volume_cut21. split; reflexivity.
  - rewrite cut21_union_common, volume_cut. split; reflexivity.
Qed.

(** C1 witness: the corner test. *)
Lemma imprint_merge_volumes_witness :
  volume_of_shape (ishape (perform_solid_imprinting no_faults Fixtures.corner_shape
                             Fixtures.corner_tool (1#10)))
  = volume_of_shape Fixtures.corner_shape.
Proof.
  apply (proj1 (imprint_merge_volumes no_faults Fixtures.corner_shape
                  Fixtures.corner_tool (1#10))).
  vm_compute. reflexivity.
Defined.

(** A row whose two indices resolve and whose imprint returns failed. *)
Definition row_fails (F : kernel_faults) (st : imprint_state)
    (fields : list string) : Prop :=
  exists f0 f1 more i j,
    fields = f0 :: f1 :: more /\
    lookup_solid (solid_shapes st) f0 = Some i /\
    lookup_solid (solid_shapes st) f1 = Some j /\
    istatus (perform_solid_imprinting F (nth i (solid_shapes st) ∅)
               (nth j (solid_shapes st) ∅) (1#100)) = imp_failed.

Lemma imprint_loop_app (F : kernel_faults) (st : imprint_state)
    (pre rest : list row_event) :
  imprint_loop F st (pre ++ rest) =
  match imprint_loop F st pre with
  | LoopEof st' => imprint_loop F st' rest
  | LoopFatal st' => LoopFatal st'
  end.
Proof.
  revert st; induction pre as [|[fields|] pre IH]; intros st; simpl;
    [reflexivity| |reflexivity].
  destruct (imprint_step F st fields); [reflexivity|apply IH].
Qed.

Lemma imprint_step_num_failed (F : kernel_faults) (st st' : imprint_state)
    (fields : list string) :
  imprint_step F st fields = StepNext st' ->
  (num_failed st <= num_failed st')%Z.
Proof.
  unfold imprint_step. intros Hs. repeat case_match; try discriminate;
    injection Hs as <-; simpl; lia.
Qed.

Definition loop_state (e : loop_end) : imprint_state :=
  match e with LoopEof st => st | LoopFatal st => st end.

Lemma imprint_loop_num_failed (F : kernel_faults) (st : imprint_state)
    (input : list row_event) :
  (num_failed st <= num_failed (loop_state (imprint_loop F st input)))%Z.
Proof.
  revert st; induction input as [|[fields|] input IH]; intros st; simpl;
    try lia.
  destruct (imprint_step F st fields) as [|st'] eqn:E; simpl; [lia|].
  specialize (IH st'). apply imprint_step_num_failed in E. lia.
Qed.

Lemma imprint_step_failed (F : kernel_faults) (st : imprint_state)
    (fields : list string) :
  row_fails F st fields ->
  imprint_step F st fields =
  StepNext (mk_imprint_state (solid_shapes st) (num_failed st + 1)).
Proof.
  intros (f0 & f1 & more & i & j & -> & Hi & Hj & Hst).
  unfold imprint_step. rewrite Hi, Hj, Hst. reflexivity.
Qed.

(** C4: a row whose imprint fails leaves the whole document, so both of its
    slots, as it was; and once such a row has been processed the imprinter
    exits with status 1 without writing its output file. *)
Theorem imprint_failure_policy :
  (forall (F : kernel_faults) (st : imprint_state) (fields : list string),
     row_fails F st fields ->
     imprint_step F st fields =
     StepNext (mk_imprint_state (solid_shapes st) (num_failed st + 1))) /\
  (forall (F : kernel_faults) (doc : list solid) (pre rest : list row_event)
          (fields : list string) (st : imprint_state),
     imprint_loop F (mk_imprint_state doc 0) pre = LoopEof st ->
     row_fails F st fields ->
     imprint_main F (Some doc) (pre ++ Row fields :: rest) = mk_stage_result 1 None).
Proof.
  split; [exact imprint_step_failed|].
  intros F doc pre rest fields st Hpre Hfail.
  assert (Hnf : (0 <= num_failed st)%Z).
  { pose proof (imprint_loop_num_failed F (mk_imprint_state doc 0) pre) as H.
    rewrite Hpre in H. simpl in H. exact H. }
  unfold imprint_main, imprint.
  rewrite imprint_loop_app, Hpre. simpl.
  rewrite (imprint_step_failed F st fields Hfail).
  pose proof (imprint_loop_num_failed F
                (mk_imprint_state (solid_shapes st) (num_failed st + 1)) rest) as Hm.
  simpl in Hm.
  destruct (imprint_loop F _ rest) as [st'|st']; simpl in *; [reflexivity|].
  destruct (Z.ltb_spec 0 (num_failed st')); [reflexivity|lia].
Qed.

(** C4 witness: a faulty kernel fails the only row "0,1,overlap". *)
Lemma imprint_failure_policy_witness :
  imprint_main (mk_faults (fun _ _ _ => true) (fun _ _ _ => false))
    (Some Fixtures.corner_doc) ([] ++ Row ["0"; "1"; "overlap"]%string :: [])
  = mk_stage_result 1 None.
Proof.
  apply (proj2 imprint_failure_policy
           (mk_faults (fun _ _ _ => true) (fun _ _ _ => false))
           Fixtures.corner_doc [] [] ["0"; "1"; "overlap"]%string
           (mk_imprint_state Fixtures.corner_doc 0)).
  - reflexivity.
  - exists "0"%string, "1"%string, ["overlap"%string], 0%nat, 1%nat.
    split; [reflexivity|split; [reflexivity|split; [reflexivity|]]].
    reflexivity.
Defined.

(** C5 (counterexample): the row "0,1,touch" on the corner document is
    imprinted: slot 1 no longer holds the tool it held before. *)
Lemma touch_row_rewrites_slots :
  match imprint_step no_faults (mk_imprint_state Fixtures.corner_doc 0)
          ["0"; "1"; "touch"]%string with
  | StepNext st' => nth 1 (solid_shapes st') ∅ <> nth 1 Fixtures.corner_doc ∅
  | StepFatal => False
  end.
Proof.
  assert (Hv : match imprint_step no_faults (mk_imprint_state Fixtures.corner_doc 0)
                     ["0"; "1"; "touch"]%string with
               | StepNext st' => volume_of_shape (nth 1 (solid_shapes st') ∅) = 7%Z
               | StepFatal => False
               end) by (vm_compute; reflexivity).
  assert (Hv0 : volume_of_shape (nth 1 Fixtures.corner_doc ∅) = 8%Z)
    by (vm_compute; reflexivity).
  destruct (imprint_step _ _ _) as [|st']; [contradiction|].
  intros Heq. rewrite Heq, Hv0 in Hv. discriminate.
Qed.

(** C5 (amended): the imprinter never reads the status field, so a
    [touch] row is processed like an overlap row: unless its imprint fails,
    slots [i] and [j] are overwritten with the shape and the tool that
    imprinting returned. *)
Theorem imprint_ignores_status_field :
  (forall (F : kernel_faults) (st : imprint_state) (f0 f1 : string)
          (xs ys : list string),
     imprint_step F st (f0 :: f1 :: xs) = imprint_step F st (f0 :: f1 :: ys)) /\
  (forall (F : kernel_faults) (st : imprint_state) (f0 f1 : string)
          (rest : list string) (i j : nat),
     lookup_solid (solid_shapes st) f0 = Some i ->
     lookup_solid (solid_shapes st) f1 = Some j ->
     let res := perform_solid_imprinting F (nth i (solid_shapes st) ∅)
                  (nth j (solid_shapes st) ∅) (1#100) in
     istatus res <> imp_failed ->
     imprint_step F st (f0 :: f1 :: "touch"%string :: rest) =
     StepNext (mk_imprint_state
                 (<[j := itool res]> (<[i := ishape res]> (solid_shapes st)))
                 (num_failed st))).
Proof.
  split; [reflexivity|].
  intros F st f0 f1 rest i j Hi Hj res Hst.
  unfold imprint_step. rewrite Hi, Hj. fold res.
  destruct (istatus res); [contradiction|reflexivity..].
Qed.

(** C5 witness: the row "0,1,touch" on the corner document. *)
Lemma imprint_ignores_status_field_witness :
  imprint_step no_faults (mk_imprint_state Fixtures.corner_doc 0)
    ["0"; "1"; "touch"]%string =
  StepNext (mk_imprint_state
    (<[1%nat := itool (perform_solid_imprinting no_faults Fixtures.corner_shape
                         Fixtures.corner_tool (1#100))]>
     (<[0%nat := ishape (perform_solid_imprinting no_faults Fixtures.corner_shape
                           Fixtures.corner_tool (1#100))]> Fixtures.corner_doc))
    0).
Proof.
  apply (proj2 imprint_ignores_status_field no_faults
           (mk_imprint_state Fixtures.corner_doc 0) "0"%string "1"%string [] 0%nat 1%nat).
  - reflexivity.
  - reflexivity.
  - vm_compute. discriminate.
Defined.

End ImprintFacts.

Module MergeFacts.

Import Merge ClassifyFacts.
Open Scope Q_scope.

Section Facts.

Context {Shp : Type}.
Variable volume : Shp -> Q.
Variable salome_glue_shape : list Shp -> list Shp.

Definition volume_close (a b : Shp) : Prop :=
  Qabs (volume a - volume b) <= Qmin (volume a) (volume b) * (1#1000).

Lemma volume_of_shape_some (s : Shp) (v : Q) :
  volume_of_shape volume s = Some v -> v = volume s.
Proof.
  unfold volume_of_shape. destruct (Qle_bool 0 (volume s)); congruence.
Qed.

Lemma count_changed_zero (inp out : list Shp) :
  count_changed volume inp out = Some 0%nat ->
  forall (i : nat) (a b : Shp), inp !! i = Some a -> out !! i = Some b ->
  volume_close a b.
Proof.
  revert out; induction inp as [|a0 inp IH]; intros out H i a b Ha Hb;
    [rewrite lookup_nil in Ha; discriminate|].
  destruct out as [|b0 out]; [rewrite lookup_nil in Hb; discriminate|].
  simpl in H.
  destruct (volume_of_shape volume a0) as [v1|] eqn:E1; [|discriminate].
  destruct (volume_of_shape volume b0) as [v2|] eqn:E2; [|discriminate].
  apply volume_of_shape_some in E1, E2. subst v1 v2.
  destruct (count_changed volume inp out) as [n|] eqn:En; [|discriminate].
  destruct (Classify.Qltb _ _) eqn:Elt; [discriminate|].
  injection H as ->.
  destruct i as [|i]; simpl in Ha, Hb.
  - injection Ha as <-. injection Hb as <-.
    apply Qltb_false in Elt. exact Elt.
  - exact (IH out En i a b Ha Hb).
Qed.

Lemma count_changed_violation (inp out : list Shp) (i : nat) (a b : Shp) :
  inp !! i = Some a -> out !! i = Some b -> ~ volume_close a b ->
  count_changed volume inp out <> Some 0%nat.
Proof.
  intros Ha Hb Hn Hz. apply Hn.
  exact (count_changed_zero inp out Hz i a b Ha Hb).
Qed.

(** C6: when the merger writes its output, the glued document has as many
    solids as the input and the i-th solid's volume is within 0.1 % of the
    smaller of the two volumes; when either condition fails the merger
    ends with a non-zero status. *)
Theorem merge_preserves_count_and_volume :
  (forall (inp out : list Shp),
     merge_main volume salome_glue_shape inp = MergeWritten out ->
     out = salome_glue_shape inp /\ length out = length inp /\
     forall (i : nat) (a b : Shp), inp !! i = Some a -> out !! i = Some b ->
       volume_close a b) /\
  (forall (inp : list Shp),
     length (salome_glue_shape inp) <> length inp \/
     (exists (i : nat) (a b : Shp), inp !! i = Some a /\
        salome_glue_shape inp !! i = Some b /\ ~ volume_close a b) ->
     exits_nonzero (merge_main volume salome_glue_shape inp)).
Proof.
  split.
  - intros inp out. unfold merge_main.
    destruct (Nat.eqb_spec (length inp) (length (salome_glue_shape inp)))
      as [Hl|Hl]; simpl; [|discriminate].
    destruct (count_changed volume inp (salome_glue_shape inp)) as [n|] eqn:E;
      [|discriminate].
    destruct (Nat.ltb_spec 0 n); [discriminate|].
    intros Hw; injection Hw as <-.
    assert (n = 0%nat) as Hn0 by lia. subst n.
    split; [reflexivity|split; [symmetry; exact Hl|]].
    exact (count_changed_zero _ _ E).
  - intros inp Hbad. unfold merge_main.
    destruct (Nat.eqb_spec (length inp) (length (salome_glue_shape inp)))
      as [Hl|Hl]; simpl; [|discriminate].
    destruct Hbad as [Hbad|(i & a & b & Ha & Hb & Hn)]; [congruence|].
    pose proof (count_changed_violation _ _ i a b Ha Hb Hn) as Hz.
    destruct (count_changed volume inp (salome_glue_shape inp)) as [n|];
      simpl; [|exact I].
    destruct (Nat.ltb_spec 0 n); simpl; [discriminate|].
    assert (n = 0%nat) as Hn0 by lia. subst n. contradiction.
Qed.

End Facts.

Lemma merge_preserves_count_and_volume_witness :
  merge_main (fun q : Q => q) (fun l => l) [1; 2] = MergeWritten [1; 2] /\
  length [1; 2] = length (@nil Q ++ [1; 2]) /\
  exits_nonzero (merge_main (fun q : Q => q) (@tl Q) [1; 2]) /\
  exits_nonzero (merge_main (fun q : Q => q) (fun l => map (Qmult 2) l) [1; 2]).
Proof.
  split; [vm_compute; reflexivity|].
  split.
  - destruct (proj1 (merge_preserves_count_and_volume (fun q : Q => q)
                       (fun l => l)) [1; 2] [1; 2]) as [_ [Hl _]];
      [vm_compute; reflexivity|exact (eq_sym Hl)].
  - split.
    + apply (proj2 (merge_preserves_count_and_volume (fun q : Q => q) (@tl Q))).
      left. simpl. discriminate.
    + apply (proj2 (merge_preserves_count_and_volume (fun q : Q => q)
                      (fun l => map (Qmult 2) l))).
      right. exists 0%nat, 1, 2. split; [reflexivity|]. split; [reflexivity|].
      unfold volume_close. vm_compute. intros Hc; apply Hc; reflexivity.
Defined.

End MergeFacts.

(* ------------------------------------------------------------------ *)
(** ** Further properties: CSV input and output, integer parsing, the
    report loop, the pair loop, the classifier and the BREP round trip *)

Module CsvFacts.

Import Imprint Csv.

Lemma parse_csv_go_done (st : CSVState) (done : list (list ascii))
    (cur row : list ascii) :
  parse_csv_go st done cur row = done ++ parse_csv_go st [] cur row.
Proof.
  revert st done cur; induction row as [|c rest IH]; intros st done cur;
    [reflexivity|].
  destruct st; simpl;
    repeat match goal with |- context [if ?b then _ else _] => destruct b end;
    first [ rewrite (IH _ (done ++ [cur])), (IH _ [cur]), app_assoc; reflexivity
          | rewrite (IH _ done); reflexivity ].
Qed.

Lemma ascii_eqb_false (a b : ascii) : a <> b -> Ascii.eqb a b = false.
Proof. intros H. destruct (Ascii.eqb_spec a b); congruence. Qed.

Lemma parse_csv_go_plain (done : list (list ascii)) (cur f rest : list ascii) :
  ~ In comma f -> ~ In dquote f ->
  parse_csv_go UnquotedField done cur (f ++ rest) =
  parse_csv_go UnquotedField done (cur ++ f) rest.
Proof.
  revert cur; induction f as [|c f IH]; intros cur Hc Hq.
  - by rewrite app_nil_r.
  - simpl.
    rewrite (ascii_eqb_false c comma), (ascii_eqb_false c dquote)
      by (intros ->; simpl in *; tauto).
    rewrite IH by (simpl in *; tauto).
    by rewrite <- app_assoc.
Qed.

Lemma parse_csv_go_join_plain (done fs : list (list ascii)) :
  fs <> [] -> Forall (fun f => ~ In comma f /\ ~ In dquote f) fs ->
  parse_csv_go UnquotedField done [] (join_fields fs) = done ++ fs.
Proof.
  revert done; induction fs as [|f fs IH]; intros done Hne Hall; [congruence|].
  inversion Hall as [|? ? [Hc Hq] Hrest]; subst.
  destruct fs as [|g fs].
  - simpl. rewrite <- (app_nil_r f) at 1.
    rewrite parse_csv_go_plain by assumption. reflexivity.
  - change (join_fields (f :: g :: fs)) with (f ++ comma :: join_fields (g :: fs)).
    rewrite parse_csv_go_plain by assumption. simpl.
    rewrite IH by (congruence || assumption).
    by rewrite <- app_assoc.
Qed.

Lemma parse_csv_go_quoted (done : list (list ascii)) (cur f rest : list ascii) :
  parse_csv_go QuotedField done cur (escape_quotes f ++ dquote :: rest) =
  parse_csv_go QuotedQuote done (cur ++ f) rest.
Proof.
  revert cur; induction f as [|c f IH]; intros cur.
  - simpl. by rewrite app_nil_r.
  - simpl. destruct (Ascii.eqb_spec c dquote) as [->|Hne].
    + simpl. rewrite IH. by rewrite <- app_assoc.
    + simpl. rewrite (ascii_eqb_false c dquote Hne). rewrite IH.
      by rewrite <- app_assoc.
Qed.

Lemma parse_csv_go_join_quoted (done fs : list (list ascii)) :
  fs <> [] ->
  parse_csv_go UnquotedField done [] (join_fields (map quote_field fs)) = done ++ fs.
Proof.
  revert done; induction fs as [|f fs IH]; intros done Hne; [congruence|].
  destruct fs as [|g fs].
  - simpl. unfold quote_field. simpl.
    rewrite parse_csv_go_quoted. reflexivity.
  - change (join_fields (map quote_field (f :: g :: fs)))
      with (quote_field f ++ comma :: join_fields (map quote_field (g :: fs))).
    unfold quote_field at 1. simpl. rewrite <- app_assoc. simpl.
    rewrite parse_csv_go_quoted. simpl.
    rewrite IH by congruence. by rewrite <- app_assoc.
Qed.


Lemma map_string_of_list_ascii_of_string (fs : list string) :
  map string_of_list_ascii (map list_ascii_of_string fs) = fs.
Proof.
  rewrite map_map. induction fs as [|f fs IH]; simpl; [reflexivity|].
  by rewrite string_of_list_ascii_of_string, IH.
Qed.

(** X1: fields free of commas and double quotes, joined by
    commas, are read back unchanged by [parse_csv_row]. *)
Theorem parse_csv_row_join_plain (fs : list string) :
  fs <> [] ->
  Forall (fun f => ~ In comma (list_ascii_of_string f) /\
                   ~ In dquote (list_ascii_of_string f)) fs ->
  parse_csv_row (string_of_list_ascii (join_fields (map list_ascii_of_string fs))) = fs.
Proof.
  intros Hne Hall. unfold parse_csv_row.
  rewrite list_ascii_of_string_of_list_ascii.
  rewrite parse_csv_go_join_plain.
  - apply map_string_of_list_ascii_of_string.
  - destruct fs; simpl; congruence.
  - apply Forall_map. exact Hall.
Qed.

Lemma parse_csv_row_join_plain_witness :
  parse_csv_row (string_of_list_ascii
    (join_fields (map list_ascii_of_string ["0"; "1"; "touch"]%string)))
  = ["0"; "1"; "touch"]%string.
Proof.
  apply parse_csv_row_join_plain; [discriminate|].
  repeat constructor; vm_compute; intuition discriminate.
Defined.


(** X2: any fields, each quoted with its double quotes doubled and
    joined by commas, are read back unchanged by [parse_csv_row]. *)
Theorem parse_csv_row_join_quoted (fs : list string) :
  fs <> [] ->
  parse_csv_row (string_of_list_ascii
    (join_fields (map quote_field (map list_ascii_of_string fs)))) = fs.
Proof.
  intros Hne. unfold parse_csv_row.
  rewrite list_ascii_of_string_of_list_ascii.
  rewrite parse_csv_go_join_quoted.
  - apply map_string_of_list_ascii_of_string.
  - destruct fs; simpl; congruence.
Qed.

Lemma parse_csv_row_join_quoted_witness :
  parse_csv_row (string_of_list_ascii
    (join_fields (map quote_field (map list_ascii_of_string
       ["a,b"; String dquote "x"]%string))))
  = ["a,b"; String dquote "x"]%string.
Proof.
  apply parse_csv_row_join_quoted. discriminate.
Defined.


Lemma getline_go_line (acc l rest : list ascii) :
  ~ In newline l ->
  getline_go acc (l ++ newline :: rest) = (acc ++ l, rest, false).
Proof.
  revert acc; induction l as [|c l IH]; intros acc Hl; simpl.
  - rewrite app_nil_r. reflexivity.
  - rewrite (ascii_eqb_false c newline) by (intros ->; simpl in Hl; tauto).
    rewrite IH by (simpl in Hl; tauto). by rewrite <- app_assoc.
Qed.

Lemma getline_go_last (acc l : list ascii) :
  ~ In newline l -> getline_go acc l = (acc ++ l, [], true).
Proof.
  revert acc; induction l as [|c l IH]; intros acc Hl; simpl.
  - rewrite app_nil_r. reflexivity.
  - rewrite (ascii_eqb_false c newline) by (intros ->; simpl in Hl; tauto).
    rewrite IH by (simpl in Hl; tauto). by rewrite <- app_assoc.
Qed.

Lemma getline_line (l rest : list ascii) :
  ~ In newline l ->
  getline (mk_istream (l ++ newline :: rest) false) = (Some l, mk_istream rest false).
Proof.
  intros Hl. pose proof (getline_go_line [] l rest Hl) as H.
  unfold getline. destruct l as [|c l]; simpl in *; rewrite ?H; reflexivity.
Qed.

Definition line_row (l : list ascii) : row_event :=
  Row (parse_csv_row (string_of_list_ascii l)).

Lemma read_rows_row (fuel : nat) (is : istream) (row row' : list string) :
  read_rows fuel is row = read_rows fuel is row'.
Proof.
  destruct fuel as [|fuel]; [reflexivity|]. simpl.
  unfold parse_next_row. destruct (eofbit is); [reflexivity|].
  destruct (getline is) as [[line|] is']; reflexivity.
Qed.

Lemma read_rows_unlines (fuel : nat) (ls : list (list ascii)) (t : list ascii)
    (row : list string) :
  Forall (fun l => ~ In newline l) ls ->
  read_rows (length ls + fuel) (mk_istream (unlines ls ++ t) false) row =
  map line_row ls ++ read_rows fuel (mk_istream t false) row.
Proof.
  revert row; induction ls as [|l ls IH]; intros row Hall; [reflexivity|].
  inversion Hall as [|? ? Hl Hrest]; subst.
  simpl length. simpl read_rows.
  assert (Hb : unlines (l :: ls) ++ t = l ++ newline :: (unlines ls ++ t))
    by (unfold unlines; simpl; by rewrite <- !app_assoc).
  rewrite Hb. unfold parse_next_row. simpl eofbit. cbn iota.
  rewrite getline_line by exact Hl. simpl.
  rewrite IH by exact Hrest. simpl. f_equal.
  f_equal. apply read_rows_row.
Qed.

Lemma unlines_length (ls : list (list ascii)) : (length ls <= length (unlines ls))%nat.
Proof.
  induction ls as [|l ls IH]; [simpl; lia|].
  unfold unlines in *. simpl. rewrite !length_app. simpl. lia.
Qed.

Lemma stdin_rows_unlines (ls : list (list ascii)) :
  Forall (fun l => ~ In newline l) ls ->
  stdin_rows (unlines ls) = map line_row ls.
Proof.
  intros Hall. pose proof (unlines_length ls) as Hlen. unfold stdin_rows.
  replace (S (length (unlines ls))) with (length ls + S (length (unlines ls) - length ls))%nat by lia.
  rewrite <- (app_nil_r (unlines ls)) at 2.
  rewrite read_rows_unlines by exact Hall.
  rewrite app_nil_r. reflexivity.
Qed.

(** X3: reading standard input with [parse_next_row] yields one row per
    line, each parsed by [parse_csv_row]; a final newline adds no row and a
    last line without one is still read. *)
Theorem stdin_rows_lines (ls : list (list ascii)) :
  Forall (fun l => ~ In newline l) ls ->
  stdin_rows (unlines ls) = map line_row ls /\
  (forall l, l <> [] -> ~ In newline l ->
   stdin_rows (unlines ls ++ l) = map line_row (ls ++ [l])).
Proof.
  intros Hall. pose proof (unlines_length ls) as Hlen. split.
  - exact (stdin_rows_unlines ls Hall).
  - intros l Hne Hl. unfold stdin_rows. rewrite length_app.
    replace (S (length (unlines ls) + length l)) with
      (length ls + S (length (unlines ls) + length l - length ls))%nat by lia.
    rewrite read_rows_unlines by exact Hall.
    rewrite map_app. f_equal.
    simpl. unfold parse_next_row, getline. simpl.
    destruct l as [|c cs]; [congruence|].
    rewrite getline_go_last by exact Hl. simpl.
    destruct (length (unlines ls) + S (length cs) - length ls)%nat; reflexivity.
Qed.

Lemma stdin_rows_lines_witness :
  stdin_rows (unlines [list_ascii_of_string "0,1"; []]) =
  map line_row [list_ascii_of_string "0,1"; []].
Proof.
  refine (proj1 (stdin_rows_lines _ _)).
  repeat constructor; vm_compute; intuition discriminate.
Defined.


End CsvFacts.

Module ImprintMoreFacts.

Import Imprint Csv CsvFacts.

Ltac voxel_ext_all :=
  apply leibniz_equiv; intros ?x;
  repeat first [ rewrite elem_of_union | rewrite elem_of_difference
               | rewrite elem_of_intersection | rewrite elem_of_empty ].





Lemma imprint_step_length (F : kernel_faults) (st st' : imprint_state)
    (fields : list string) :
  imprint_step F st fields = StepNext st' ->
  length (solid_shapes st') = length (solid_shapes st).
Proof.
  unfold imprint_step.
  destruct fields as [|f0 [|f1 rest]]; try discriminate.
  destruct (lookup_solid _ f0); [|discriminate].
  destruct (lookup_solid _ f1); [|discriminate].
  destruct (istatus _); intros H; injection H as <-; simpl;
    rewrite ?length_insert; reflexivity.
Qed.

Lemma imprint_loop_length (F : kernel_faults) (rows : list row_event)
    (st : imprint_state) :
  match imprint_loop F st rows with
  | LoopFatal st' | LoopEof st' => length (solid_shapes st') = length (solid_shapes st)
  end.
Proof.
  revert st; induction rows as [|ev rows IH]; intros st; simpl; [reflexivity|].
  destruct ev as [fields|]; [|reflexivity].
  destruct (imprint_step F st fields) as [|st1] eqn:E; [reflexivity|].
  specialize (IH st1). apply imprint_step_length in E.
  destruct (imprint_loop F st1 rows); congruence.
Qed.

(** X5: the document [imprint] returns, and the BREP file the imprinter
    writes, hold as many solids as its input. *)
Theorem imprint_keeps_solid_count (F : kernel_faults) (doc : list solid)
    (rows : list row_event) :
  length (snd (imprint F doc rows)) = length doc /\
  forall doc', written (imprint_main F (Some doc) rows) = Some doc' ->
               length doc' = length doc.
Proof.
  assert (H : length (snd (imprint F doc rows)) = length doc).
  { unfold imprint.
    pose proof (imprint_loop_length F rows (mk_imprint_state doc 0)) as Hl.
    destruct (imprint_loop F _ rows) as [st'|st']; simpl in *; [exact Hl|].
    destruct (0 <? num_failed st'); exact Hl. }
  split; [exact H|].
  intros doc'. unfold imprint_main.
  destruct (imprint F doc rows) as [status d] eqn:E. simpl in H.
  destruct (negb (status =? 0)); simpl; [discriminate|].
  intros Hw; injection Hw as <-. exact H.
Qed.

Lemma imprint_keeps_solid_count_witness :
  exists doc', written (imprint_main no_faults (Some [∅; ∅])
                          [Row ["0"; "1"]%string]) = Some doc' /\
               length doc' = 2%nat.
Proof.
  eexists. split.
  - vm_compute. reflexivity.
  - apply (proj2 (imprint_keeps_solid_count no_faults [∅; ∅]
                    [Row ["0"; "1"]%string])).
    vm_compute. reflexivity.
Defined.


Lemma volume_disjoint_union (a b : solid) :
  a ∩ b = ∅ ->
  volume_of_shape (a ∪ b) = volume_of_shape a + volume_of_shape b.
Proof.
  intros H. unfold volume_of_shape. rewrite size_union; [lia|].
  intros x Ha Hb.
  assert (Hx : x ∈ a ∩ b) by (apply elem_of_intersection; auto).
  rewrite H in Hx. apply elem_of_empty in Hx. exact Hx.
Qed.

Lemma common_empty (s t : solid) :
  shape_has_verticies (s ∩ t) = false -> s ∩ t = ∅.
Proof.
  unfold shape_has_verticies. destruct (bool_decide_reflect (s ∩ t = ∅)); 
    simpl; [auto|discriminate].
Qed.

(** X6: an imprint that does not fail splits the space covered by the two
    solids without loss or overlap: the two results cover exactly the
    union of the inputs, share no voxel, and their volumes add up to the
    volume of that union. *)
Theorem imprint_partitions_pair (F : kernel_faults) (s t : solid) (fz : Q) :
  let r := perform_solid_imprinting F s t fz in
  istatus r <> imp_failed ->
  ishape r ∪ itool r = s ∪ t /\ ishape r ∩ itool r = ∅ /\
  volume_of_shape (ishape r) + volume_of_shape (itool r) = volume_of_shape (s ∪ t).
Proof.
  intros r. subst r. unfold perform_solid_imprinting.
  destruct (filler_has_errors F s t fz); [simpl; congruence|].
  destruct (op_has_errors F BOP_COMMON s t); [simpl; congruence|].
  destruct (op_has_errors F BOP_CUT s t); [simpl; congruence|].
  destruct (op_has_errors F BOP_CUT21 s t); [simpl; congruence|].
  destruct (shape_has_verticies (s ∩ t)) eqn:Hv; simpl.
  - destruct (volume_of_shape (t ∖ s) <=? volume_of_shape (s ∖ t)) eqn:Hm; simpl.
    + destruct (op_has_errors F BOP_FUSE (s ∖ t) (s ∩ t)); simpl; [congruence|].
      intros _.
      assert (E1 : (s ∖ t ∪ s ∩ t) ∪ t ∖ s = s ∪ t)
        by (voxel_ext_all; destruct (decide (x ∈ s)), (decide (x ∈ t)); tauto).
      assert (E2 : (s ∖ t ∪ s ∩ t) ∩ (t ∖ s) = ∅)
        by (voxel_ext_all; split; [tauto|intros []]).
      split; [exact E1|]. split; [exact E2|].
      rewrite <- E1. symmetry. apply volume_disjoint_union. exact E2.
    + destruct (op_has_errors F BOP_FUSE (t ∖ s) (s ∩ t)); simpl; [congruence|].
      intros _.
      assert (E1 : s ∖ t ∪ (t ∖ s ∪ s ∩ t) = s ∪ t)
        by (voxel_ext_all; destruct (decide (x ∈ s)), (decide (x ∈ t)); tauto).
      assert (E2 : s ∖ t ∩ (t ∖ s ∪ s ∩ t) = ∅)
        by (voxel_ext_all; split; [tauto|intros []]).
      split; [exact E1|]. split; [exact E2|].
      rewrite <- E1. symmetry. apply volume_disjoint_union. exact E2.
  - intros _. apply common_empty in Hv.
    assert (E1 : s ∖ t ∪ t ∖ s = s ∪ t).
    { voxel_ext_all. split; [tauto|].
      intros Hx. destruct (decide (x ∈ s)), (decide (x ∈ t)); try tauto.
      assert (Hc : x ∈ s ∩ t) by (apply elem_of_intersection; auto).
      rewrite Hv in Hc. apply elem_of_empty in Hc. destruct Hc. }
    assert (E2 : (s ∖ t) ∩ (t ∖ s) = ∅) by (voxel_ext_all; split; [tauto|intros []]).
    split; [exact E1|]. split; [exact E2|].
    rewrite <- E1. symmetry. apply volume_disjoint_union. exact E2.
Qed.

Lemma imprint_partitions_pair_witness :
  let r := perform_solid_imprinting no_faults Fixtures.corner_shape
             Fixtures.corner_tool (1#100) in
  istatus r <> imp_failed /\ ishape r ∩ itool r = ∅.
Proof.
  intros r.
  assert (H : istatus r <> imp_failed) by (unfold r; vm_compute; discriminate).
  split; [exact H|].
  exact (proj1 (proj2 (imprint_partitions_pair no_faults _ _ _ H))).
Defined.


(** X7: a row naming the same solid twice empties that solid: unless the
    imprint fails, the slot ends up holding the empty tool result. *)
Theorem imprint_same_index_empties_slot (F : kernel_faults) (st : imprint_state)
    (f0 f1 : string) (rest : list string) (i : nat) :
  lookup_solid (solid_shapes st) f0 = Some i ->
  lookup_solid (solid_shapes st) f1 = Some i ->
  let s := nth i (solid_shapes st) ∅ in
  istatus (perform_solid_imprinting F s s (1#100)) <> imp_failed ->
  exists st', imprint_step F st (f0 :: f1 :: rest) = StepNext st' /\
              solid_shapes st' !! i = Some ∅ /\ num_failed st' = num_failed st.
Proof.
  intros H0 H1 s Hok. subst s. simpl. rewrite H0, H1.
  assert (Hi : (i < length (solid_shapes st))%nat).
  { unfold lookup_solid in H0.
    destruct (int_of_string f0) as [idx|]; [|discriminate].
    destruct (idx <? 0)%Z eqn:Hneg; [discriminate|].
    destruct (Z.of_nat (length (solid_shapes st)) <=? idx)%Z eqn:Hle;
      [discriminate|].
    injection H0 as <-. apply Z.ltb_ge in Hneg. apply Z.leb_gt in Hle. lia. }
  set (s := nth i (solid_shapes st) ∅) in *.
  assert (Htool : itool (perform_solid_imprinting F s s (1#100)) = ∅).
  { revert Hok. unfold perform_solid_imprinting.
    destruct (filler_has_errors F s s _); [simpl; congruence|].
    destruct (op_has_errors F BOP_COMMON s s); [simpl; congruence|].
    destruct (op_has_errors F BOP_CUT s s); [simpl; congruence|].
    destruct (op_has_errors F BOP_CUT21 s s); [simpl; congruence|].
    assert (Hss : s ∖ s = ∅) by (voxel_ext_all; split; [tauto|intros []]).
    rewrite Hss, Z.leb_refl. simpl.
    destruct (negb (shape_has_verticies (s ∩ s))); simpl; [reflexivity|].
    destruct (op_has_errors F BOP_FUSE ∅ (s ∩ s)); reflexivity. }
  destruct (istatus (perform_solid_imprinting F s s (1#100))) eqn:Hst;
    [congruence| | |];
    eexists; (split; [reflexivity|]); simpl; rewrite Htool;
    (split; [apply list_lookup_insert_eq; rewrite length_insert; exact Hi|reflexivity]).
Qed.

Lemma imprint_same_index_empties_slot_witness :
  exists st', imprint_step no_faults (mk_imprint_state Fixtures.corner_doc 0)
                ["1"; "1"]%string = StepNext st' /\
              solid_shapes st' !! 1%nat = Some ∅ /\ num_failed st' = 0.
Proof.
  apply (imprint_same_index_empties_slot no_faults
           (mk_imprint_state Fixtures.corner_doc 0) "1" "1" [] 1).
  - vm_compute. reflexivity.
  - vm_compute. reflexivity.
  - vm_compute. discriminate.
Defined.


End ImprintMoreFacts.

Module IntFacts.

Import Imprint Emit.
Open Scope Z_scope.

Lemma digit_value_digit_char (d : N) :
  (d < 10)%N -> digit_value (digit_char d) = Some (Z.of_N d).
Proof.
  intros Hd.
  assert (d = 0 \/ d = 1 \/ d = 2 \/ d = 3 \/ d = 4 \/ d = 5 \/ d = 6 \/
          d = 7 \/ d = 8 \/ d = 9)%N as E by lia.
  repeat destruct E as [E|E]; subst d; reflexivity.
Qed.

Lemma read_digits_decimal (ds : list N) (acc : Z) (r : list ascii) :
  Forall (fun d => (d < 10)%N) ds ->
  read_digits 10 acc (map digit_char ds ++ r) =
  read_digits 10 (fold_left (fun a d => a * 10 + Z.of_N d)%Z ds acc) r.
Proof.
  revert acc. induction ds as [|d ds IH]; intros acc Hds; [reflexivity|].
  inversion Hds; subst. simpl.
  rewrite digit_value_digit_char by assumption.
  replace (Z.of_N d <? 10)%Z with true by (symmetry; apply Z.ltb_lt; lia).
  apply IH; assumption.
Qed.

Lemma decimal_digits_spec (fuel : nat) (n : N) :
  (n < 2 ^ N.of_nat fuel)%N ->
  Forall (fun d => (d < 10)%N) (decimal_digits fuel n) /\
  fold_left (fun a d => a * 10 + Z.of_N d)%Z (decimal_digits fuel n) 0%Z = Z.of_N n /\
  exists d ds, decimal_digits fuel n = d :: ds /\ (n = 0 -> d = 0 /\ ds = [])%N /\
               (1 <= n -> 1 <= d)%N.
Proof.
  revert n. induction fuel as [|fuel IH]; intros n Hn.
  - simpl in Hn. assert (n = 0)%N by lia. subst n.
    split; [repeat constructor; lia|]. split; [reflexivity|].
    exists 0%N, []. split; [reflexivity|]. split; [auto|lia].
  - simpl decimal_digits. destruct (N.ltb_spec n 10) as [Hlt|Hge].
    + split; [repeat constructor; lia|]. split; [simpl; lia|].
      exists n, []. split; [reflexivity|]. split; [auto|lia].
    + rewrite Nat2N.inj_succ, N.pow_succ_r' in Hn.
      assert (Hq : (n / 10 < 2 ^ N.of_nat fuel)%N).
      { apply N.Div0.div_lt_upper_bound; lia. }
      destruct (IH _ Hq) as (F & V & d & ds & E & _ & H1).
      split; [apply Forall_app; split; [exact F|repeat constructor; apply N.mod_lt; lia]|].
      split.
      * rewrite fold_left_app, V. simpl.
        pose proof (N.div_mod n 10). lia.
      * rewrite E. exists d, (ds ++ [(n mod 10)%N]). split; [reflexivity|].
        split; [lia|]. intros _. apply H1.
        apply N.div_le_lower_bound; lia.
Qed.

Lemma size_nat_bound (n : N) : (n < 2 ^ N.of_nat (N.size_nat n))%N.
Proof.
  destruct n as [|p]; [reflexivity|]. simpl N.size_nat.
  induction p as [p IH|p IH|]; simpl Pos.size_nat;
    rewrite ?Nat2N.inj_succ, ?N.pow_succ_r'; try reflexivity; lia.
Qed.

Lemma show_N_spec (n : N) :
  exists d ds, show_N n = map digit_char (d :: ds) /\
    Forall (fun d => (d < 10)%N) (d :: ds) /\
    fold_left (fun a d => a * 10 + Z.of_N d)%Z (d :: ds) 0%Z = Z.of_N n /\
    (n = 0 -> d = 0 /\ ds = [])%N /\ (1 <= n -> 1 <= d)%N.
Proof.
  destruct (decimal_digits_spec _ n (size_nat_bound n)) as (F & V & d & ds & E & H0 & H1).
  unfold show_N. rewrite E in *. exists d, ds. auto.
Qed.

Lemma strtol0_show_N_pos (n : N) :
  (1 <= n)%N ->
  strtol0 (show_N n) = (Z.of_N n, []) /\
  strtol0 ("-"%char :: show_N n) = ((- Z.of_N n)%Z, []).
Proof.
  intros Hn.
  destruct (show_N_spec n) as (d & ds & E & F & V & _ & H1).
  rewrite E. specialize (H1 Hn). inversion F as [|? ? Hd Fds]; subst.
  assert (d = 1 \/ d = 2 \/ d = 3 \/ d = 4 \/ d = 5 \/ d = 6 \/
          d = 7 \/ d = 8 \/ d = 9)%N as Ed by lia.
  assert (Hr : forall k, Z.of_nat k = Z.of_N d ->
    read_digits 10 (0 * 10 + Z.of_nat k) (map digit_char ds) = (Z.of_N n, [])).
  { intros k Hk. rewrite Hk.
    rewrite <- (app_nil_r (map digit_char ds)), read_digits_decimal by exact Fds.
    simpl in V. rewrite V. reflexivity. }
  repeat destruct Ed as [Ed|Ed]; subst d;
    (split; unfold strtol0; simpl; rewrite Hr by reflexivity; f_equal; lia).
Qed.

(** [strtol] reads back a number written in decimal. *)
Lemma strtol0_show_Z (i : Z) : strtol0 (show_Z i) = (i, []).
Proof.
  unfold show_Z. destruct (Z.ltb_spec i 0) as [Hi|Hi].
  - destruct (strtol0_show_N_pos (Z.to_N (- i)) ltac:(lia)) as [_ ->].
    f_equal. lia.
  - destruct (N.eq_dec (Z.to_N i) 0%N) as [E|E].
    + rewrite E. assert (i = 0%Z) as -> by lia. reflexivity.
    + destruct (strtol0_show_N_pos (Z.to_N i) ltac:(lia)) as [-> _].
      f_equal. lia.
Qed.

Lemma show_Z_nonempty (i : Z) : show_Z i <> [].
Proof.
  unfold show_Z. destruct (i <? 0)%Z; [discriminate|].
  destruct (show_N_spec (Z.to_N i)) as (d & ds & E & _). rewrite E. discriminate.
Qed.


Lemma skip_space_skipn (cs : list ascii) : exists n, skip_space cs = skipn n cs.
Proof.
  induction cs as [|c cs [n IH]]; [exists 0%nat; reflexivity|].
  simpl. destruct (is_space c); [exists (S n); exact IH|exists 0%nat; reflexivity].
Qed.

Lemma skipn_last_in {A} (l : list A) (a : A) (n : nat) :
  skipn n (l ++ [a]) <> [] -> In a (skipn n (l ++ [a])).
Proof.
  rewrite skipn_app. intros H.
  destruct (Nat.le_gt_cases n (length l)) as [Hn|Hn].
  - replace (n - length l)%nat with 0%nat by lia. simpl.
    apply in_or_app. right. left. reflexivity.
  - rewrite skipn_all2 in * by lia. simpl in *.
    destruct (n - length l)%nat as [|[|k]] eqn:E; [lia| |]; simpl in H; congruence.
Qed.

Lemma sign_split (body : list ascii) :
  exists n, snd (match body with
                 | "-"%char :: r => ((-1)%Z, r)
                 | "+"%char :: r => (1%Z, r)
                 | _ => (1%Z, body)
                 end) = skipn n body.
Proof.
  destruct body as [|c r]; [exists 0%nat; reflexivity|].
  destruct c as [[] [] [] [] [] [] [] []];
    first [exists 0%nat; reflexivity | exists 1%nat; reflexivity].
Qed.

Ltac split_digits :=
  repeat match goal with
  | |- context [if ?b then _ else _] => destruct b
  | |- context [match ?t with [] => _ | _ :: _ => _ end] => destruct t
  | |- context [match read_digits ?B ?A ?Y with pair _ _ => _ end] =>
      destruct (read_digits B A Y) as [?v0 ?r0] eqn:?Er
  end.

Lemma digits_split (body cs : list ascii) :
  match (match body with
         | "0"%char :: x :: c :: r =>
             if ((Ascii.eqb x "x"%char || Ascii.eqb x "X"%char) && is_digit_in 16 c)%bool
             then let '(v, rest) := read_digits 16 0 (c :: r) in (v, rest, true)
             else let '(v, rest) := read_digits 8 0 body in (v, rest, true)
         | c :: _ =>
             if Ascii.eqb c "0"%char
             then let '(v, rest) := read_digits 8 0 body in (v, rest, true)
             else if is_digit_in 10 c
             then let '(v, rest) := read_digits 10 0 body in (v, rest, true)
             else (0%Z, cs, false)
         | [] => (0%Z, cs, false)
         end) with
  | (v, rest, ok) => ok = true ->
      exists b n, skipn n body <> [] /\ rest = snd (read_digits b 0 (skipn n body))
  end.
Proof.
  destruct body as [|c1 t]; [discriminate|].
  destruct c1 as [[] [] [] [] [] [] [] []]; cbn -[read_digits is_digit_in Ascii.eqb];
    split_digits; intros Hok; try discriminate;
    match goal with E : read_digits ?B _ ?Y = _ |- _ =>
      first [ exists B, 2%nat; cbn [skipn]; split; [discriminate|]; rewrite E; reflexivity
            | exists B, 0%nat; cbn [skipn]; split; [discriminate|]; rewrite E; reflexivity ]
    end.
Qed.

Lemma digits_ok_irrelevant (body cs1 cs2 : list ascii) (v : Z) (rest : list ascii) :
  (match body with
         | "0"%char :: x :: c :: r =>
             if ((Ascii.eqb x "x"%char || Ascii.eqb x "X"%char) && is_digit_in 16 c)%bool
             then let '(v, rest) := read_digits 16 0 (c :: r) in (v, rest, true)
             else let '(v, rest) := read_digits 8 0 body in (v, rest, true)
         | c :: _ =>
             if Ascii.eqb c "0"%char
             then let '(v, rest) := read_digits 8 0 body in (v, rest, true)
             else if is_digit_in 10 c
             then let '(v, rest) := read_digits 10 0 body in (v, rest, true)
             else (0%Z, cs1, false)
         | [] => (0%Z, cs1, false)
         end) = (v, rest, true) ->
  (match body with
         | "0"%char :: x :: c :: r =>
             if ((Ascii.eqb x "x"%char || Ascii.eqb x "X"%char) && is_digit_in 16 c)%bool
             then let '(v, rest) := read_digits 16 0 (c :: r) in (v, rest, true)
             else let '(v, rest) := read_digits 8 0 body in (v, rest, true)
         | c :: _ =>
             if Ascii.eqb c "0"%char
             then let '(v, rest) := read_digits 8 0 body in (v, rest, true)
             else if is_digit_in 10 c
             then let '(v, rest) := read_digits 10 0 body in (v, rest, true)
             else (0%Z, cs2, false)
         | [] => (0%Z, cs2, false)
         end) = (v, rest, true).
Proof.
  destruct body as [|c1 t]; [discriminate|].
  destruct c1 as [[] [] [] [] [] [] [] []]; cbn -[read_digits is_digit_in Ascii.eqb];
    split_digits; congruence.
Qed.

Lemma list_ascii_of_string_app (s t : string) :
  list_ascii_of_string (s ++ t) = list_ascii_of_string s ++ list_ascii_of_string t.
Proof. induction s as [|c s IH]; simpl; [reflexivity|]. rewrite IH. reflexivity. Qed.

Lemma digit_value_space (c : ascii) : is_space c = true -> digit_value c = None.
Proof.
  unfold is_space, digit_value. destruct c as [[] [] [] [] [] [] [] []];
    vm_compute; congruence.
Qed.

Lemma read_digits_keeps (c : ascii) (b acc : Z) (y : list ascii) :
  digit_value c = None -> In c y -> In c (snd (read_digits b acc y)).
Proof.
  intros Hc. revert acc. induction y as [|c' y IH]; intros acc Hin; [exact Hin|].
  simpl. destruct (digit_value c') as [d|] eqn:Ed; [|exact Hin].
  destruct Hin as [->|Hin]; [congruence|].
  destruct (d <? b)%Z; [apply IH, Hin|right; exact Hin].
Qed.

Ltac destruct_pair_match :=
  match goal with
  | |- context [match ?m with pair _ _ => _ end] => destruct m
  end.

(** Whatever [strtol] reads, it stops before a trailing white-space
    character. *)
Lemma strtol0_trailing_space (cs : list ascii) (c : ascii) :
  is_space c = true -> In c (snd (strtol0 (cs ++ [c]))).
Proof.
  intros Hc. pose proof (digit_value_space c Hc) as Hd.
  unfold strtol0.
  destruct (skip_space_skipn (cs ++ [c])) as [n1 E1]. rewrite E1.
  pose proof (sign_split (skipn n1 (cs ++ [c]))) as [n2 E2].
  destruct (match skipn n1 (cs ++ [c]) with
            | "-"%char :: r => ((-1)%Z, r)
            | "+"%char :: r => (1%Z, r)
            | _ => (1%Z, skipn n1 (cs ++ [c]))
            end) as [sign body].
  simpl in E2. subst body.
  pose proof (digits_split (skipn n2 (skipn n1 (cs ++ [c]))) (cs ++ [c])) as Hs.
  destruct (match skipn n2 (skipn n1 (cs ++ [c])) with
            | "0"%char :: _ :: _ :: _ => _
            | _ :: _ => _
            | [] => _
            end) as [[v rest] ok].
  destruct ok.
  - destruct (Hs eq_refl) as (b & n & Hne & ->).
    rewrite !skipn_skipn in *. simpl.
    apply read_digits_keeps; [exact Hd|]. apply skipn_last_in. exact Hne.
  - simpl. apply in_or_app. right. left. reflexivity.
Qed.

Lemma strtol0_leading_space (c : ascii) (cs : list ascii) :
  is_space c = true ->
  strtol0 (c :: cs) = strtol0 cs \/
  (strtol0 (c :: cs) = (0%Z, c :: cs) /\ strtol0 cs = (0%Z, cs)).
Proof.
  intros Hc. unfold strtol0.
  change (skip_space (c :: cs)) with (if is_space c then skip_space cs else c :: cs).
  rewrite Hc. cbv beta iota.
  destruct (match skip_space cs with
            | "-"%char :: r => ((-1)%Z, r)
            | "+"%char :: r => (1%Z, r)
            | _ => (1%Z, skip_space cs)
            end) as [sign body].
  lazymatch goal with
  | |- match ?m1 with pair _ _ => _ end = match ?m2 with pair _ _ => _ end \/ _ =>
      destruct m1 as [[v1 rest1] ok1] eqn:E1; destruct m2 as [[v2 rest2] ok2] eqn:E2
  end.
  destruct ok1, ok2.
  - left. pose proof (digits_ok_irrelevant _ _ cs _ _ E1) as E.
    rewrite E2 in E. injection E as -> ->. reflexivity.
  - pose proof (digits_ok_irrelevant _ _ cs _ _ E1) as E. congruence.
  - pose proof (digits_ok_irrelevant _ _ (c :: cs) _ _ E2) as E. congruence.
  - right. split; reflexivity.
Qed.

(** X8: the imprinter's [int_of_string] reads back every integer
    printed in decimal that fits an [int], and rejects every other one. *)
Theorem int_of_string_show_Z (i : Z) :
  int_of_string (string_of_list_ascii (show_Z i)) =
  if ((INT_MIN <=? i) && (i <=? INT_MAX))%Z%bool then Some i else None.
Proof.
  unfold int_of_string.
  rewrite list_ascii_of_string_of_list_ascii, strtol0_show_Z.
  pose proof (show_Z_nonempty i).
  destruct (Z.leb_spec INT_MIN i), (Z.leb_spec i INT_MAX), (Z.ltb_spec INT_MAX i),
    (Z.ltb_spec i INT_MIN); simpl; try lia; try reflexivity.
  destruct (show_Z i); [congruence|reflexivity].
Qed.

(** X9: [int_of_string] skips white space before the number but fails
    on a string that ends in white space. *)
Theorem int_of_string_space (c : ascii) (s : string) :
  is_space c = true ->
  int_of_string (String c s) = int_of_string s /\
  int_of_string (s ++ String c EmptyString) = None.
Proof.
  intros Hc. split.
  - unfold int_of_string. cbn [list_ascii_of_string].
    destruct (list_ascii_of_string s) as [|c0 cs] eqn:Es.
    + unfold strtol0. cbn [skip_space]. rewrite Hc. reflexivity.
    + destruct (strtol0_leading_space c (c0 :: cs) Hc) as [->|[-> ->]].
      * destruct (strtol0 (c0 :: cs)) as [l rest].
        destruct (INT_MAX <? l)%Z, (l <? INT_MIN)%Z; try reflexivity.
      * reflexivity.
  - unfold int_of_string. rewrite list_ascii_of_string_app. cbn [list_ascii_of_string].
    pose proof (strtol0_trailing_space (list_ascii_of_string s) c Hc) as H.
    destruct (strtol0 (list_ascii_of_string s ++ [c])) as [l [|r rest]];
      [contradiction|].
    destruct (INT_MAX <? l)%Z, (l <? INT_MIN)%Z; try reflexivity.
    destruct (list_ascii_of_string s ++ [c]); reflexivity.
Qed.

Lemma int_of_string_space_witness :
  int_of_string (String " " "42") = int_of_string "42" /\
  int_of_string ("42" ++ String " " EmptyString) = None.
Proof.
  apply int_of_string_space. reflexivity.
Defined.


(** An index the checker prints is looked up by the imprinter as the same
    solid when it is an index of the imprinter's document. *)
Lemma lookup_solid_show_nat (doc : list solid) (i : nat) :
  (i < length doc)%nat -> (Z.of_nat i <= INT_MAX)%Z ->
  lookup_solid doc (string_of_list_ascii (show_nat i)) = Some i.
Proof.
  intros Hi Hmax. unfold lookup_solid.
  replace (show_nat i) with (show_Z (Z.of_nat i)).
  2:{ unfold show_Z, show_nat. destruct (Z.ltb_spec (Z.of_nat i) 0); [lia|].
      rewrite <- nat_N_Z, N2Z.id. reflexivity. }
  rewrite int_of_string_show_Z.
  unfold INT_MIN.
  destruct (Z.leb_spec (-2147483648) (Z.of_nat i)); [|lia].
  destruct (Z.leb_spec (Z.of_nat i) INT_MAX); [|lia]. simpl.
  destruct (Z.ltb_spec (Z.of_nat i) 0); [lia|].
  destruct (Z.leb_spec (Z.of_nat (length doc)) (Z.of_nat i)); [lia|].
  rewrite Nat2Z.id. reflexivity.
Qed.

End IntFacts.

Module EmitFacts.

Import Classify OverlapChecker OverlapCheckerFacts Imprint Csv CsvFacts Emit IntFacts.

Lemma digit_char_plain (d : N) :
  (d < 10)%N -> digit_char d <> comma /\ digit_char d <> dquote /\ digit_char d <> newline.
Proof.
  intros Hd.
  assert (d = 0 \/ d = 1 \/ d = 2 \/ d = 3 \/ d = 4 \/ d = 5 \/ d = 6 \/
          d = 7 \/ d = 8 \/ d = 9)%N as E by lia.
  repeat destruct E as [E|E]; subst d; repeat split; discriminate.
Qed.

Lemma show_N_plain (n : N) :
  ~ In comma (show_N n) /\ ~ In dquote (show_N n) /\ ~ In newline (show_N n).
Proof.
  destruct (show_N_spec n) as (d & ds & E & F & _). rewrite E.
  rewrite !in_map_iff.
  repeat split; intros (x & Hx & Hin); rewrite List.Forall_forall in F;
    destruct (digit_char_plain x (F x Hin)) as (H1 & H2 & H3); congruence.
Qed.

Lemma show_fixed2_no_newline (q : Q) : ~ In newline (show_fixed2 q).
Proof.
  unfold show_fixed2. set (m := round_half_even (Qabs q * 100)).
  assert (H1 : (Z.to_N (m mod 100 / 10) < 10)%N).
  { pose proof (Z.mod_pos_bound m 100 ltac:(lia)).
    assert (0 <= m mod 100 / 10 < 10)%Z by (split; [apply Z.div_pos|apply Z.div_lt_upper_bound]; lia).
    lia. }
  assert (H2 : (Z.to_N (m mod 10) < 10)%N).
  { pose proof (Z.mod_pos_bound m 10 ltac:(lia)). lia. }
  pose proof (digit_char_plain _ H1) as (_ & _ & D1).
  pose proof (digit_char_plain _ H2) as (_ & _ & D2).
  pose proof (show_N_plain (Z.to_N (m / 100))) as (_ & _ & D0).
  rewrite !in_app_iff. simpl.
  unfold newline in *.
  destruct (Qltb q 0); simpl; intuition discriminate || congruence.
Qed.

(** The state strings the checker may print. *)
Definition state_ok (r : csv_row) : Prop :=
  match r with
  | TouchRow _ _ => True
  | OverlapRow _ _ st _ _ _ => st = "bad_overlap"%string \/ st = "overlap"%string
  end.

Lemma show_row_no_newline (r : csv_row) : state_ok r -> ~ In newline (show_row r).
Proof.
  pose proof (show_N_plain (N.of_nat (row_hi r))) as (_ & _ & Hh).
  pose proof (show_N_plain (N.of_nat (row_lo r))) as (_ & _ & Hl).
  destruct r as [h l|h l st vc vh vl]; simpl in *; intros Hst.
  - rewrite in_app_iff. simpl. rewrite in_app_iff. simpl. unfold show_nat.
    unfold comma, newline in *. intuition discriminate || congruence.
  - pose proof (show_fixed2_no_newline vc). pose proof (show_fixed2_no_newline vh).
    pose proof (show_fixed2_no_newline vl).
    unfold show_nat in *.
    rewrite !in_app_iff. simpl. rewrite !in_app_iff. simpl.
    unfold comma, newline in *.
    destruct Hst as [->| ->]; simpl; rewrite ?in_app_iff; simpl; rewrite ?in_app_iff; simpl; intuition discriminate || congruence.
Qed.

Lemma parse_show_row (r : csv_row) :
  exists rest, parse_csv_row (string_of_list_ascii (show_row r)) =
    string_of_list_ascii (show_nat (row_hi r)) ::
    string_of_list_ascii (show_nat (row_lo r)) :: rest.
Proof.
  assert (Hs : exists tail, show_row r =
      show_nat (row_hi r) ++ comma :: show_nat (row_lo r) ++ comma :: tail).
  { destruct r; simpl; eexists; reflexivity. }
  destruct Hs as [tail ->].
  pose proof (show_N_plain (N.of_nat (row_hi r))) as (Hc1 & Hq1 & _).
  pose proof (show_N_plain (N.of_nat (row_lo r))) as (Hc2 & Hq2 & _).
  unfold parse_csv_row. rewrite list_ascii_of_string_of_list_ascii.
  unfold show_nat in *.
  rewrite parse_csv_go_plain by assumption. simpl.
  rewrite parse_csv_go_plain by assumption. simpl.
  rewrite parse_csv_go_done. simpl.
  eexists. reflexivity.
Qed.

Lemma report_all_rows (R : Q) (volumes : list Q) (outputs : list worker_output)
    (r : csv_row) :
  In r (rows (report_all R volumes outputs)) ->
  exists o, In o outputs /\ row_hi r = hi o /\ row_lo r = lo o /\ state_ok r.
Proof.
  unfold report_all.
  destruct (report_fold_spec R volumes outputs report_init) as (H & _).
  rewrite H. simpl. rewrite in_flat_map. intros (o & Ho & Hr).
  exists o. split; [exact Ho|].
  unfold spec_rows in Hr.
  destruct (status (result o)); simpl in Hr; try contradiction;
    destruct Hr as [<-|[]]; simpl; auto.
  destruct (Qltb _ _); simpl; auto.
Qed.

Lemma Forall_Forall2_map {A B} (P : A -> B -> Prop) (f : A -> B) (l : list A) :
  Forall (fun x => P x (f x)) l -> Forall2 P l (map f l).
Proof. induction 1; simpl; constructor; auto. Qed.

(** X10: the checker's standard output, fed to the imprinter, gives one
    row per printed line, whose first two fields name the solids of that
    line's pair in the imprinter's document. *)
Theorem checker_rows_reach_imprinter (R : Q) (volumes : list Q)
    (outputs : list worker_output) (doc : list solid) :
  Forall (fun o => (hi o < length doc)%nat /\ (lo o < length doc)%nat) outputs ->
  (Z.of_nat (length doc) <= INT_MAX)%Z ->
  let s := report_all R volumes outputs in
  exists fss, stdin_rows (stdout_text s) = map Row fss /\
    Forall2 (fun r fs => exists f0 f1 rest, fs = f0 :: f1 :: rest /\
               lookup_solid doc f0 = Some (row_hi r) /\
               lookup_solid doc f1 = Some (row_lo r)) (rows s) fss.
Proof.
  intros Hout Hlen s.
  assert (Hrows : forall r, In r (rows s) ->
    (row_hi r < length doc)%nat /\ (row_lo r < length doc)%nat /\ state_ok r).
  { intros r Hr. destruct (report_all_rows R volumes outputs r Hr)
      as (o & Ho & -> & -> & Hst).
    rewrite List.Forall_forall in Hout. destruct (Hout o Ho). auto. }
  exists (map (fun r => parse_csv_row (string_of_list_ascii (show_row r))) (rows s)).
  split.
  - unfold stdout_text. rewrite stdin_rows_unlines.
    + rewrite !map_map. reflexivity.
    + apply List.Forall_forall. intros l Hl. apply in_map_iff in Hl.
      destruct Hl as (r & <- & Hr). apply show_row_no_newline, Hrows, Hr.
  - apply Forall_Forall2_map, List.Forall_forall. intros r Hr.
    destruct (Hrows r Hr) as (Hh & Hl & _).
    destruct (parse_show_row r) as [rest ->].
    exists (string_of_list_ascii (show_nat (row_hi r))),
      (string_of_list_ascii (show_nat (row_lo r))), rest.
    split; [reflexivity|].
    split; apply lookup_solid_show_nat; lia.
Qed.

Lemma checker_rows_reach_imprinter_witness :
  let s := report_all 1%Q [1; 1]%Q
             [mk_worker_output 1 0 (mk_intersect_result st_touching (-1) (-1) (-1))] in
  exists fss, stdin_rows (stdout_text s) = map Row fss /\
    Forall2 (fun r fs => exists f0 f1 rest, fs = f0 :: f1 :: rest /\
               lookup_solid Fixtures.corner_doc f0 = Some (row_hi r) /\
               lookup_solid Fixtures.corner_doc f1 = Some (row_lo r)) (rows s) fss.
Proof.
  apply checker_rows_reach_imprinter.
  - repeat constructor.
  - vm_compute. discriminate.
Defined.


End EmitFacts.

Module ReportFacts.

Import Classify OverlapChecker.

Definition counted (s : report_state) : nat :=
  (num_failed s + num_touching s + num_overlaps s + num_bad_overlaps s)%nat.

Definition row_counters (s : report_state) : nat :=
  (num_touching s + num_overlaps s + num_bad_overlaps s)%nat.

Lemma report_fold_counts (R : Q) (volumes : list Q) (outputs : list worker_output)
    (s : report_state) :
  let s' := fold_left (report_one R volumes) outputs s in
  num_processed s' = (num_processed s + length outputs)%nat /\
  (counted s' + count_status st_distinct outputs = counted s + length outputs)%nat /\
  (length (rows s') + row_counters s = length (rows s) + row_counters s')%nat.
Proof.
  revert s. induction outputs as [|o outputs IH]; intros s; simpl.
  - unfold count_status. simpl. lia.
  - destruct (IH (report_one R volumes s o)) as (H1 & H2 & H3).
    set (s' := fold_left (report_one R volumes) outputs (report_one R volumes s o)) in *.
    clearbody s'.
    unfold count_status in *. simpl.
    destruct s as [rs np nf nt no nb], o as [h l [st vc vcut vcut12]].
    unfold counted, row_counters in *. simpl in *.
    destruct st; simpl in *; rewrite ?length_app in *; simpl in *;
      try (destruct (Qltb _ _); simpl in *; rewrite ?length_app in *; simpl in * ); lia.
Qed.

(** X11: the checker's counters account for every classified pair: each
    one is counted once as processed, and once as failed, touching, overlap
    or bad overlap unless it is distinct; one row is printed per touching,
    overlap and bad overlap. *)
Theorem report_all_counters (R : Q) (volumes : list Q) (outputs : list worker_output) :
  let s := report_all R volumes outputs in
  num_processed s = length outputs /\
  (num_failed s + num_touching s + num_overlaps s + num_bad_overlaps s +
   count_status st_distinct outputs = length outputs)%nat /\
  length (rows s) = (num_touching s + num_overlaps s + num_bad_overlaps s)%nat.
Proof.
  destruct (report_fold_counts R volumes outputs report_init) as (H1 & H2 & H3).
  unfold report_all, counted, row_counters in *. simpl in *. lia.
Qed.

End ReportFacts.

Module PairsFacts.

Import Pairs.

Definition new_pairs (disjoint : nat -> nat -> bool) (hi : nat) : list (nat * nat) :=
  map (pair hi) (List.filter (fun lo => negb (disjoint hi lo)) (seq 0 hi)).

Lemma inner_fold (disjoint : nat -> nat -> bool) (hi : nat) (los : list nat)
    (t : nat) (acc : list (nat * nat)) :
  fold_left (pair_step disjoint hi) los (t, acc) =
  ((t + length los)%nat,
   acc ++ map (pair hi) (List.filter (fun lo => negb (disjoint hi lo)) los)).
Proof.
  revert t acc. induction los as [|lo los IH]; intros t acc; simpl.
  - rewrite app_nil_r. f_equal. lia.
  - unfold pair_step at 1. destruct (disjoint hi lo); simpl; rewrite IH.
    + f_equal. lia.
    + rewrite <- app_assoc. f_equal. lia.
Qed.

Lemma outer_fold (disjoint : nat -> nat -> bool) (his : list nat)
    (t : nat) (acc : list (nat * nat)) :
  fold_left (fun acc hi => fold_left (pair_step disjoint hi) (seq 0 hi) acc)
    his (t, acc) =
  ((t + list_sum his)%nat, acc ++ flat_map (new_pairs disjoint) his).
Proof.
  revert t acc. induction his as [|hi his IH]; intros t acc; simpl.
  - rewrite app_nil_r. f_equal. lia.
  - rewrite inner_fold, IH, length_seq, <- app_assoc. f_equal. lia.
Qed.

Lemma sum_seq (m : nat) : (2 * list_sum (seq 1 m) = m * (m + 1))%nat.
Proof.
  induction m as [|m IH]; [reflexivity|].
  rewrite seq_S, list_sum_app. simpl list_sum. lia.
Qed.

Lemma NoDup_new_pairs (disjoint : nat -> nat -> bool) (his : list nat) :
  NoDup his -> NoDup (flat_map (new_pairs disjoint) his).
Proof.
  induction 1 as [|hi his Hnin Hnd IH]; simpl; [constructor|].
  apply NoDup_app. split; [|split; [|exact IH]].
  - unfold new_pairs. apply NoDup_fmap_2; [intros x y; congruence|].
    apply NoDup_ListNoDup, List.NoDup_filter, seq_NoDup.
  - intros [h l] Hx Hy. apply list_elem_of_In in Hx, Hy.
    unfold new_pairs in Hx. apply in_map_iff in Hx as (lo & Heq & _).
    injection Heq as <- <-.
    apply in_flat_map in Hy as (hi' & Hhi' & Hy).
    unfold new_pairs in Hy. apply in_map_iff in Hy as (lo' & Heq & _).
    injection Heq as -> _. apply Hnin, list_elem_of_In, Hhi'.
Qed.

(** X12: the checker's pair loop makes [n(n-1)/2] bounding-box tests and
    submits each pair [(hi, lo)] with [lo < hi < n] whose boxes are not
    disjoint, exactly once. *)
Theorem submit_pairs_spec (n : nat) (disjoint : nat -> nat -> bool) :
  let '(num_bbox_tests, submitted) := submit_pairs n disjoint in
  (2 * num_bbox_tests = n * (n - 1))%nat /\
  NoDup submitted /\
  (forall hi lo, In (hi, lo) submitted <->
     (lo < hi < n)%nat /\ disjoint hi lo = false).
Proof.
  unfold submit_pairs. rewrite outer_fold. simpl.
  split; [|split].
  - pose proof (sum_seq (n - 1)) as Hs. destruct n as [|m]; [reflexivity|].
    replace (S m - 1)%nat with m in * by lia. nia.
  - apply NoDup_new_pairs, NoDup_ListNoDup, seq_NoDup.
  - intros hi lo. rewrite in_flat_map. split.
    + intros (h & Hh & Hin). apply in_seq in Hh.
      unfold new_pairs in Hin. apply in_map_iff in Hin as (l & Heq & Hl).
      injection Heq as -> ->. apply filter_In in Hl as [Hl Hd].
      apply in_seq in Hl. apply negb_true_iff in Hd. split; [lia|exact Hd].
    + intros [Hlt Hd]. exists hi. split; [apply in_seq; lia|].
      unfold new_pairs. apply in_map_iff. exists lo. split; [reflexivity|].
      apply filter_In. split; [apply in_seq; lia|]. rewrite Hd. reflexivity.
Qed.

End PairsFacts.

Module ClassifyMoreFacts.

Import Classify ClassifyFacts.
Open Scope Q_scope.

Lemma run_polls_expired (polls : list Z) (t : ProgressTimeout) :
  expired_ t = false ->
  expired_ (run_polls polls t) = existsb (fun p => (expireat_ t <=? p)%Z) polls.
Proof.
  revert t. induction polls as [|now rest IH]; intros t Ht; [exact Ht|].
  simpl. unfold UserBreak. rewrite Ht.
  destruct (Z.ltb_spec now (expireat_ t)) as [Hlt|Hge].
  - rewrite (IH t Ht). replace (expireat_ t <=? now)%Z with false
      by (symmetry; apply Z.leb_gt; lia). reflexivity.
  - replace (expireat_ t <=? now)%Z with true by (symmetry; apply Z.leb_le; lia).
    reflexivity.
Qed.

(** X13: with a positive time limit [classify_solid_intersection] reports
    a timeout exactly when the pave filler polls the progress indicator at
    or after the start time plus the limit. *)
Theorem classify_timeout_iff (k : csi_kernel) (fv : Q) (ms : N) :
  (0 < ms)%N ->
  (exists r, classify_solid_intersection k fv ms = Returned r /\ status r = st_timeout) <->
  (exists p, In p (k_polls k) /\ (k_start k + Z.of_N ms <= p)%Z).
Proof.
  intros Hms. unfold classify_solid_intersection, timeout_begin, filler_Perform.
  replace (0 <? ms)%N with true by (symmetry; apply N.ltb_lt; exact Hms).
  simpl attached. cbv iota.
  rewrite run_polls_expired by reflexivity. simpl expireat_.
  destruct (existsb _ _) eqn:E.
  - apply existsb_exists in E as (p & Hp & Hle). apply Z.leb_le in Hle.
    split; [intros _; exists p; auto|intros _; eexists; split; reflexivity].
  - split.
    + intros (r & Hr & Hst). exfalso.
      unfold volume_of_shape in Hr.
      repeat match type of Hr with
      | context [if ?b then _ else _] => destruct b
      end; try discriminate; injection Hr as <-; discriminate.
    + intros (p & Hp & Hle).
      assert (existsb (fun p0 => (k_start k + Z.of_N ms <=? p0)%Z) (k_polls k) = true)
        as E' by (apply existsb_exists; exists p; split; [exact Hp|apply Z.leb_le; exact Hle]).
      congruence.
Qed.

Lemma classify_timeout_iff_witness :
  (exists r, classify_solid_intersection
               (mk_csi_kernel 0%Z [5; 20]%Z false false true 1 false 1 false 1 false false)
               0 10 = Returned r /\ status r = st_timeout) <->
  (exists p, In p [5; 20]%Z /\ (0 + Z.of_N 10 <= p)%Z).
Proof.
  apply (classify_timeout_iff
           (mk_csi_kernel 0%Z [5; 20]%Z false false true 1 false 1 false 1 false false) 0 10).
  reflexivity.
Defined.


Definition overlap_volumes_ok (r : intersect_result) : Prop :=
  status r = st_overlap -> 0 <= vol_common r /\ 0 <= vol_cut r /\ 0 <= vol_cut12 r.

Lemma classify_overlap_volumes (k : csi_kernel) (fv : Q) (ms : N) (r : intersect_result) :
  classify_solid_intersection k fv ms = Returned r -> overlap_volumes_ok r.
Proof.
  unfold classify_solid_intersection, volume_of_shape, overlap_volumes_ok. intros H.
  repeat match type of H with
  | context [if ?b then _ else _] => destruct b eqn:?
  end; try discriminate; injection H as <-; simpl; try discriminate.
  intros _. repeat match goal with E : Qltb _ _ = false |- _ => apply Qltb_false in E end.
  auto.
Qed.

Lemma ladder_overlap_volumes (kernel : Q -> csi_kernel) (ms : N) (fvs : list Q)
    (result : intersect_result) (calls calls' : list Q) (r : intersect_result) :
  overlap_volumes_ok result ->
  ladder kernel ms fvs result calls = (calls', Classified r) -> overlap_volumes_ok r.
Proof.
  revert result calls. induction fvs as [|fv rest IH]; intros result calls Hres; simpl.
  - intros [= _ <-]. exact Hres.
  - destruct (classify_solid_intersection (kernel fv) fv ms) as [r'|w] eqn:E;
      [|discriminate].
    pose proof (classify_overlap_volumes _ _ _ _ E) as Hr'.
    destruct (intersect_status_eqb (status r') st_failed).
    + apply IH, Hr'.
    + intros [= _ <-]. exact Hr'.
Qed.

(** X14: every overlap that [shape_classifier] hands back has a
    non-negative common volume and non-negative volumes of both cuts. *)
Theorem shape_classifier_overlap_volumes (kernel : Q -> csi_kernel) (ms : N)
    (fvs : list Q) (calls : list Q) (r : intersect_result) :
  shape_classifier kernel ms fvs = (calls, Classified r) ->
  status r = st_overlap ->
  0 <= vol_common r /\ 0 <= vol_cut r /\ 0 <= vol_cut12 r.
Proof.
  intros H. apply (ladder_overlap_volumes kernel ms fvs uninit_result [] calls r).
  - intros Hst. discriminate.
  - exact H.
Qed.

Lemma shape_classifier_overlap_volumes_witness :
  0 <= vol_common (mk_intersect_result st_overlap 1 2 3) /\
  0 <= vol_cut (mk_intersect_result st_overlap 1 2 3) /\
  0 <= vol_cut12 (mk_intersect_result st_overlap 1 2 3).
Proof.
  apply (shape_classifier_overlap_volumes
           (fun _ => mk_csi_kernel 0 [] false false true 1 false 2 false 3 false false)
           0 [0] [0]).
  - reflexivity.
  - reflexivity.
Defined.


End ClassifyMoreFacts.

Module MiscFacts.

Import Brep Misc Classify ClassifyFacts OverlapCheckerFacts.
Open Scope Q_scope.

(** X15: [are_vals_close] is symmetric; with a positive absolute
    tolerance every value is close to itself, and with no absolute
    tolerance zero is not close to itself. *)
Theorem are_vals_close_sym_refl (a b drel dabs : Q) :
  are_vals_close a b drel dabs = are_vals_close b a drel dabs /\
  (0 <= drel -> 0 < dabs -> are_vals_close a a drel dabs = Some true) /\
  (0 < drel -> are_vals_close 0 0 drel 0 = Some false).
Proof.
  split; [|split].
  - unfold are_vals_close.
    destruct (negb _); [reflexivity|]. destruct (negb _); [reflexivity|].
    destruct (negb _); [reflexivity|]. f_equal.
    apply Qltb_compat.
    + rewrite <- Qabs_opp. apply Qabs_wd. ring.
    + rewrite Q.max_comm. reflexivity.
  - intros Hr Ha. unfold are_vals_close.
    replace (Qle_bool 0 drel) with true by (symmetry; apply Qle_bool_iff; exact Hr).
    replace (Qle_bool 0 dabs) with true by (symmetry; apply Qle_bool_iff; apply Qlt_le_weak, Ha).
    replace (Qltb 0 dabs) with true by (symmetry; apply Qltb_spec; exact Ha).
    rewrite orb_true_r. simpl. f_equal. apply Qltb_spec.
    assert (Z0 : Qabs (a - a) == 0) by (rewrite (Qabs_wd _ 0); [reflexivity|ring]).
    rewrite Z0.
    assert (0 <= drel * Qmax (Qabs a) (Qabs a)).
    { apply Qmult_le_0_compat; [exact Hr|]. rewrite Q.max_id. apply Qabs_nonneg. }
    apply Qlt_le_trans with dabs; [exact Ha|].
    rewrite <- (Qplus_0_l dabs) at 1. apply Qplus_le_compat; [assumption|apply Qle_refl].
  - intros Hr. unfold are_vals_close.
    replace (Qle_bool 0 drel) with true by (symmetry; apply Qle_bool_iff, Qlt_le_weak, Hr).
    replace (Qltb 0 drel) with true by (symmetry; apply Qltb_spec; exact Hr).
    simpl. f_equal. apply Qltb_false.
    assert (Z0 : drel * 0 + 0 == 0) by ring. rewrite Z0. exact (Qabs_nonneg (0 - 0)).
Qed.

Lemma are_vals_close_sym_refl_witness :
  are_vals_close 1 1 (1 # 10000000000) (1 # 10000000000000) = Some true.
Proof.
  apply (proj1 (proj2 (are_vals_close_sym_refl 1 1 (1 # 10000000000)
                                               (1 # 10000000000000)))).
  - vm_compute. discriminate.
  - reflexivity.
Defined.


Lemma push_children_ok (acc kids : list TopoDS_Shape) (doc : list TopoDS_Shape) :
  push_children acc kids = Loaded doc ->
  doc = acc ++ kids /\ forallb (fun s => child_type_ok (ShapeType s)) kids = true.
Proof.
  revert acc. induction kids as [|k kids IH]; intros acc; simpl.
  - intros [= <-]. rewrite app_nil_r. auto.
  - destruct k as [ty kk]. simpl.
    destruct ty; try discriminate; intros H; destruct (IH _ H) as [-> Hok];
      rewrite <- app_assoc; auto.
Qed.

Lemma push_children_all_ok (acc kids : list TopoDS_Shape) :
  forallb (fun s => child_type_ok (ShapeType s)) kids = true ->
  push_children acc kids = Loaded (acc ++ kids).
Proof.
  revert acc. induction kids as [|k kids IH]; intros acc; simpl.
  - intros _. rewrite app_nil_r. reflexivity.
  - destruct k as [ty kk]. simpl. intros H. apply andb_prop in H as [Hk H].
    destruct ty; try discriminate; rewrite IH by exact H; rewrite <- app_assoc; reflexivity.
Qed.

(** X16: a document that [load_brep_file] accepted and [write_brep_file]
    saved is loaded back by the next stage with the same solids in the
    same order. *)
Theorem load_write_load (read : option TopoDS_Shape) (doc : list TopoDS_Shape)
    (f : TopoDS_Shape) :
  load_brep_file read = Loaded doc ->
  write_brep_file true doc = Written f ->
  load_brep_file (Some f) = Loaded doc.
Proof.
  intros Hload Hw. injection Hw as <-.
  assert (Hok : forallb (fun s => child_type_ok (ShapeType s)) doc = true).
  { destruct read as [[ty kids]|]; [|discriminate]. simpl in Hload.
    destruct ty; try discriminate; apply push_children_ok in Hload as [-> Hok]; exact Hok. }
  simpl. apply push_children_all_ok. exact Hok.
Qed.

Lemma load_write_load_witness :
  load_brep_file (Some (MkShape TopAbs_COMPOUND
                          [MkShape TopAbs_SOLID []; MkShape TopAbs_COMPSOLID []]))
  = Loaded [MkShape TopAbs_SOLID []; MkShape TopAbs_COMPSOLID []].
Proof.
  apply (load_write_load
           (Some (MkShape TopAbs_COMPSOLID
                    [MkShape TopAbs_SOLID []; MkShape TopAbs_COMPSOLID []]))).
  - reflexivity.
  - reflexivity.
Defined.


End MiscFacts.
